(** * calcipy doit tasks: README splice, [__init__.py] merge and tag scan

    A shallow embedding of the text-processing functions of
    [calcipy/doit_tasks/doc.py] and [calcipy/doit_tasks/tag_collector.py],
    of [read_lines] and [if_found_unlink] of [doit_helpers/base.py] and of
    [check_linting_errors] of [dash_dev/doit_lint.py], together with the
    properties stated about them.

    - Python [str] values are sequences of Unicode code points: [list N].
    - [Dict[str, ...]] is a [gmap] keyed by such sequences.
    - Exceptions are values of [exn]; a computation that may raise returns
      [result A = exn + A].
    - Files are passed explicitly: a function that reads and rewrites a file
      takes the old content (the text [read_text] returns) and returns the
      new one (the text given to [write_text]).
    - What comes from other libraries is a parameter: the order and
      [relative_to] of [pathlib] paths, the files [_find_files] finds, the
      loaded coverage report. *)

From Stdlib Require Import String Ascii NArith List Lia Bool.
From Stdlib Require Import DecimalString Sorted.
From stdpp Require Import gmap list.
Import ListNotations.

Local Open Scope N_scope.

(** ** Python strings *)

Abbreviation char := N.
Abbreviation str := (list N).

(** An ASCII literal as a Python string. *)
Definition lit (s : string) : str :=
  map N_of_ascii (list_ascii_of_string s).

Module Str.

(** [str.isspace] on one code point: the characters removed by
    [str.strip()] and matched by [\s] in a [str] pattern. *)
Definition isspace (c : char) : bool :=
  ((9 <=? c) && (c <=? 13)) || ((28 <=? c) && (c <=? 32))
  || (c =? 133) || (c =? 160) || (c =? 5760)
  || ((8192 <=? c) && (c <=? 8202))
  || (c =? 8232) || (c =? 8233) || (c =? 8239) || (c =? 8287)
  || (c =? 12288).

Fixpoint lstrip (s : str) : str :=
  match s with
  | c :: s' => if isspace c then lstrip s' else s
  | [] => []
  end.

Definition rstrip (s : str) : str := rev (lstrip (rev s)).

(** [s.strip()] *)
Definition strip (s : str) : str := rstrip (lstrip s).

(** [s.startswith(p)] *)
Fixpoint startswith (s p : str) : bool :=
  match p, s with
  | [], _ => true
  | _ :: _, [] => false
  | a :: p', b :: s' => (a =? b) && startswith s' p'
  end.

(** [sub in s] *)
Fixpoint contains (sub s : str) : bool :=
  startswith s sub ||
  match s with
  | [] => false
  | _ :: s' => contains sub s'
  end.

(** [s.split(sep)] for a one-character separator. *)
Fixpoint split (sep : char) (s : str) : list str :=
  match s with
  | [] => [[]]
  | c :: s' =>
      if c =? sep then [] :: split sep s'
      else match split sep s' with
           | l :: ls => (c :: l) :: ls
           | [] => [[c]]
           end
  end.

(** [sep.join(ls)] *)
Fixpoint join (sep : str) (ls : list str) : str :=
  match ls with
  | [] => []
  | [l] => l
  | l :: ls' => l ++ sep ++ join sep ls'
  end.

(** [s.replace(old, new)] for a one-character [old]. *)
Definition replace (old : char) (new : str) (s : str) : str :=
  flat_map (fun c => if c =? old then new else [c]) s.

(** [ls.index(x)]; [None] stands for [ValueError]. *)
Fixpoint index (x : str) (ls : list str) : option nat :=
  match ls with
  | [] => None
  | l :: ls' =>
      if decide (l = x) then Some 0%nat
      else option_map S (index x ls')
  end.

(** The longest prefix of [s] whose characters satisfy [f]. *)
Fixpoint take_while (f : char -> bool) (s : str) : str :=
  match s with
  | c :: s' => if f c then c :: take_while f s' else []
  | [] => []
  end.

Definition nl : char := 10.
Definition tab : char := 9.

End Str.

(** ** Exceptions *)

Inductive State := readme | new.

Inductive exn :=
| KeyError (key : option str)
| MachineError (trigger : string) (source : State)
| IndexError.

Definition result (A : Type) : Type := exn + A.

Definition ret {A} (a : A) : result A := inr a.
Definition raise {A} (e : exn) : result A := inl e.
Definition bind {A B} (m : result A) (k : A -> result B) : result B :=
  match m with
  | inl e => inl e
  | inr a => k a
  end.

Notation "'let*' x ':=' m 'in' k" := (bind m (fun x => k))
  (at level 10, x name, m at level 100, k at level 200).

(** ** doc.py *)

Module Doc.

(** *** The README state machine

    [_ReadMeMachine] wraps a [transitions.Machine] with the states
    ['readme'] (initial) and ['new'] and two triggers.  A trigger fired
    from a state it has no transition for raises [MachineError] (the
    machine is built without [ignore_invalid_triggers]). *)

Record _ReadMeMachine := Machine {
  state : State;
  readme_lines : list str;
}.

Definition transitions : list (string * State * State) :=
  [ ("start_new"%string, readme, new); ("end"%string, new, readme) ].

Definition State_eqb (a b : State) : bool :=
  match a, b with
  | readme, readme | new, new => true
  | _, _ => false
  end.

Definition trigger (name : string) (self : _ReadMeMachine) : result _ReadMeMachine :=
  match
    find (fun t => String.eqb (fst (fst t)) name && State_eqb (snd (fst t)) (state self))
         transitions
  with
  | Some t => ret (Machine (snd t) (readme_lines self))
  | None => raise (MachineError name (state self))
  end.

Definition start_new := trigger "start_new".
Definition end_ := trigger "end".

(** A compiled pattern, seen through [comment_pattern.match(line)]: [None]
    when the line does not match, otherwise [group(1)] of the match (which
    is [None] when the group took no part in it). *)
Definition Pattern := str -> option (option str).

Definition getitem (new_text : gmap str (list str)) (key : option str)
  : result (list str) :=
  match key with
  | Some k =>
      match new_text !! k with
      | Some v => ret v
      | None => raise (KeyError key)
      end
  | None => raise (KeyError key)
  end.

Definition append (line : str) (self : _ReadMeMachine) : _ReadMeMachine :=
  Machine (state self) (readme_lines self ++ [line]).

Definition extend (ls : list str) (self : _ReadMeMachine) : _ReadMeMachine :=
  Machine (state self) (readme_lines self ++ ls).

(** One iteration of the loop of [parse]. *)
Definition parse_line (comment_pattern : Pattern) (new_text : gmap str (list str))
    (self : _ReadMeMachine) (line : str) : result _ReadMeMachine :=
  let* self :=
    match comment_pattern line with
    | Some group1 =>
        let self := append line self in
        if Str.startswith (Str.strip line) (lit "<!-- /") then end_ self
        else
          let key := group1 in
          let* v := getitem new_text key in
          let self := extend ([] :: v ++ [[]]) self in
          start_new self
    | None =>
        if State_eqb (state self) readme then ret (append line self)
        else ret self
    end in
  let* new_line :=
    match last (readme_lines self) with
    | Some l => ret l
    | None => raise IndexError
    end in
  ret self.

Fixpoint parse_loop (comment_pattern : Pattern) (new_text : gmap str (list str))
    (self : _ReadMeMachine) (lines : list str) : result _ReadMeMachine :=
  match lines with
  | [] => ret self
  | line :: lines' =>
      let* self := parse_line comment_pattern new_text self line in
      parse_loop comment_pattern new_text self lines'
  end.

(** [self.parse(lines, comment_pattern, new_text)]: the machine keeps its
    state, [readme_lines] starts empty. *)
Definition parse (self : _ReadMeMachine) (lines : list str)
    (comment_pattern : Pattern) (new_text : gmap str (list str))
  : result _ReadMeMachine :=
  parse_loop comment_pattern new_text (Machine (state self) []) lines.

(** [_ReadMeMachine()] *)
Definition init : _ReadMeMachine := Machine readme [].

(** [_ReadMeMachine().parse(lines, comment_pattern, new_text)] *)
Definition splice (lines : list str) (comment_pattern : Pattern)
    (new_text : gmap str (list str)) : result (list str) :=
  let* self := parse init lines comment_pattern new_text in
  ret (readme_lines self).

(** [read_lines(file_path)] of [base.py]; [None] is a path that is no
    file. *)
Definition read_lines (file : option str) : list str :=
  match file with
  | Some content => Str.split Str.nl content
  | None => []
  end.

(** [_write_to_readme]: the new content of [README.md].  Nothing is
    written when [parse] raises. *)
Definition _write_to_readme (comment_pattern : Pattern)
    (new_text : gmap str (list str)) (readme_file : option str) : result str :=
  let* readme_lines := splice (read_lines readme_file) comment_pattern new_text in
  ret (Str.join [Str.nl] readme_lines).

(** [re.compile(r'<!-- /?(COVERAGE) -->')], used through [match]: the
    line starts with the opening or the closing comment. *)
Definition coverage_pattern : Pattern := fun line =>
  if Str.startswith line (lit "<!-- COVERAGE -->")
     || Str.startswith line (lit "<!-- /COVERAGE -->")
  then Some (Some (lit "COVERAGE"))
  else None.

(** *** The package [__init__.py] *)

Definition _INIT_DIVIDER : str :=
  lit "# " ++ repeat 61 15
  ++ lit " Above is Auto-Generated by calcipy. User content goes below "
  ++ repeat 61 15.

Definition _LOGGER_CONFIG (docstring pkg_version pkg_name : str) : str :=
  docstring ++ [Str.nl; Str.nl]
  ++ lit "from loguru import logger" ++ [Str.nl; Str.nl]
  ++ lit "__version__ = '" ++ pkg_version ++ lit "'" ++ [Str.nl]
  ++ lit "__pkg_name__ = '" ++ pkg_name ++ lit "'" ++ [Str.nl; Str.nl]
  ++ lit "logger.disable(__pkg_name__)" ++ [Str.nl].

(** The body of [_write_pkg_init] from line 77 on, with the generated
    text before the divider and the divider as arguments:
    [init_text = generated + '\n' + divider]. *)
Definition merge (init_lines : list str) (generated : str) (divider : str) : str :=
  let init_text := generated ++ [Str.nl] ++ divider in
  let user_text :=
    match Str.index divider init_lines with
    | Some i =>
        let break_index := (i + 1)%nat in
        Str.join [Str.nl] (drop break_index init_lines)
    | None => []
    end in
  Str.strip (Str.replace Str.tab (lit "    ") init_text ++ user_text) ++ [Str.nl].

Definition quotes3 : str := [34; 34; 34].

(** [_write_pkg_init]: the new content of the package's [__init__.py],
    from the package name and version of [DIG.meta] and the old content. *)
Definition _write_pkg_init (pkg_name pkg_version : str) (init_file : str) : str :=
  merge (Str.split Str.nl (Str.strip init_file))
        (_LOGGER_CONFIG (quotes3 ++ pkg_name ++ lit "." ++ quotes3) pkg_version pkg_name)
        _INIT_DIVIDER.

(** *** What one line adds to the output

    [emit] is the transition of the machine without the accumulated
    list: the next state and the lines appended for one input line. *)
Definition is_closer (line : str) : bool :=
  Str.startswith (Str.strip line) (lit "<!-- /").

Definition emit (comment_pattern : Pattern) (new_text : gmap str (list str))
    (st : State) (line : str) : result (State * list str) :=
  match comment_pattern line with
  | Some group1 =>
      if is_closer line then
        match st with
        | new => ret (readme, [line])
        | readme => raise (MachineError "end" readme)
        end
      else
        let* v := getitem new_text group1 in
        match st with
        | readme => ret (new, line :: [] :: v ++ [[]])
        | new => raise (MachineError "start_new" new)
        end
  | None =>
      match st with
      | readme => ret (readme, [line])
      | new => ret (new, [])
      end
  end.

Fixpoint emits (comment_pattern : Pattern) (new_text : gmap str (list str))
    (st : State) (lines : list str) : result (State * list str) :=
  match lines with
  | [] => ret (st, [])
  | line :: lines' =>
      let* r := emit comment_pattern new_text st line in
      let* r' := emits comment_pattern new_text (fst r) lines' in
      ret (fst r', snd r ++ snd r')
  end.

(** The lines of the input outside every marked region: those read in
    state ['readme'] that the pattern does not match. *)
Fixpoint outside (comment_pattern : Pattern) (st : State) (lines : list str)
  : list str :=
  match lines with
  | [] => []
  | line :: lines' =>
      match comment_pattern line with
      | Some _ =>
          outside comment_pattern (if is_closer line then readme else new) lines'
      | None =>
          match st with
          | readme => line :: outside comment_pattern readme lines'
          | new => outside comment_pattern new lines'
          end
      end
  end.

(** *** The producers of the replacement text *)

(** The longest [p] such that [s] is [p] followed by [stop] and more: what
    a greedy [.*] takes when [stop] has to follow it. *)
Fixpoint greedy_until (stop : str) (s : str) : option str :=
  match s with
  | [] => if Str.startswith [] stop then Some [] else None
  | c :: s' =>
      match greedy_until stop s' with
      | Some p => Some (c :: p)
      | None => if Str.startswith s stop then Some [] else None
      end
  end.

(** The pattern of [_write_code_to_readme], used through [match]: white
    space, the comment opening, an optional slash, and in group 1 [CODE:]
    with the characters up to the last space and comment closing of the
    line ([.] takes no newline). *)
Definition code_pattern : Pattern := fun line =>
  let s := Str.lstrip line in
  if Str.startswith s (lit "<!-- ") then
    let s1 := drop 5 s in
    let s2 := if Str.startswith s1 (lit "/") then drop 1 s1 else s1 in
    if Str.startswith s2 (lit "CODE:") then
      match greedy_until (lit " -->")
              (Str.take_while (fun c => negb (c =? Str.nl)) (drop 5 s2)) with
      | Some p => Some (Some (lit "CODE:" ++ p))
      | None => None
      end
    else None
  else None.

(** A marker line for an embedded file as a README has it: indentation,
    the comment with an optional slash, and the name of the file. *)
Definition code_marker (indent : str) (slash : bool) (name : str) : str :=
  indent ++ lit "<!-- " ++ (if slash then lit "/" else []) ++ lit "CODE:" ++ name
  ++ lit " -->".

Definition fn : str := lit "tests/examples/readme.py".

(** [_write_code_to_readme]: the README after the call, from the script
    file and the README before it.  Without the script the function only
    logs a warning. *)
Definition _write_code_to_readme (script : option str) (readme_file : option str)
  : result (option str) :=
  match script with
  | Some _ =>
      let source_code := [lit "```py"] ++ read_lines script ++ [lit "```"] in
      let new_text : gmap str (list str) :=
        {[ lit "CODE:" ++ fn := map Str.rstrip source_code ]} in
      let* text := _write_to_readme code_pattern new_text readme_file in
      ret (Some text)
  | None => ret readme_file
  end.

(** One line of the Markdown table; [row] holds [str(value)] for the
    values of the row. *)
Definition table_line (row : list str) : str :=
  lit "| " ++ Str.join (lit " | ") row ++ lit " |".

Definition legend : list str :=
  map lit ["File"; "Statements"; "Missing"; "Excluded"; "Coverage"]%string.

(** [table_lines] of [_write_coverage_to_readme].  [file_rows] has, for
    each file of the report in its order, the [str] of the five values of
    its row; [timestamp] is [coverage['meta']['timestamp']]. *)
Definition table_lines (file_rows : list (list str)) (timestamp : str) : list str :=
  let rows := [legend; repeat (lit "--:") (length legend)] ++ file_rows in
  map table_line rows ++ [[]; lit "Generated on: " ++ timestamp].

(** [_write_coverage_to_readme] once [coverage.json] has been made and
    loaded: the README after the call.  [coverage] is [None] when there is
    no [coverage.json], and the rows and time stamp of the report
    otherwise. *)
Definition _write_coverage_to_readme (coverage : option (list (list str) * str))
    (readme_file : option str) : result (option str) :=
  match coverage with
  | Some (file_rows, timestamp) =>
      let* text := _write_to_readme coverage_pattern
                     {[ lit "COVERAGE" := table_lines file_rows timestamp ]}
                     readme_file in
      ret (Some text)
  | None => ret readme_file
  end.

(** *** Files on disk

    [Path.read_text()] opens the file with universal newlines: a carriage
    return, alone or followed by a newline, is read as one newline.
    [Path.write_text()] writes each newline as the line separator of the
    system, a newline or ([windows]) a carriage return and a newline.
    The encoding is left out: a text is a sequence of code points that
    the encoding in use can hold. *)

Definition cr : char := 13.

Fixpoint read_text (file : str) : str :=
  match file with
  | [] => []
  | c :: file' =>
      if c =? cr then
        Str.nl :: match file' with
                  | c' :: file'' =>
                      if c' =? Str.nl then read_text file'' else read_text file'
                  | [] => []
                  end
      else c :: read_text file'
  end.

Definition write_text (windows : bool) (text : str) : str :=
  if windows then Str.replace Str.nl [cr; Str.nl] text else text.

(** A text that ends in a newline and not in two. *)
Definition single_trailing_newline (s : str) : bool :=
  match rev s with
  | c :: rest =>
      (c =? Str.nl) && match rest with
                      | c' :: _ => negb (c' =? Str.nl)
                      | [] => true
                      end
  | [] => false
  end.

End Doc.

(** ** tag_collector.py *)

Module TagCollector.

Record _TaggedComment := TaggedComment {
  lineno : nat;
  tag : str;
  text : str;
}.

(** A compiled expression, seen through [regex_compiled.search(line)]:
    the groups [tag] and [text] of the first match, if there is one. *)
Definition Regex := str -> option (str * str).

Definition skip_tags : str := lit ":skip_tags:".

(** The loop of [_search_lines] from [enumerate] index [lineno] on. *)
Fixpoint search_loop (regex_compiled : Regex) (comments : list _TaggedComment)
    (lineno : nat) (lines : list str) : list _TaggedComment :=
  match lines with
  | [] => comments
  | line :: lines' =>
      let match_ := regex_compiled line in
      if (lineno <=? 3)%nat && Str.contains skip_tags line then comments
      else
        match match_ with
        | Some mg =>
            search_loop regex_compiled
              (comments ++ [TaggedComment (lineno + 1) (fst mg) (snd mg)])
              (S lineno) lines'
        | None => search_loop regex_compiled comments (S lineno) lines'
        end
  end.

Definition _search_lines (lines : list str) (regex_compiled : Regex)
  : list _TaggedComment :=
  search_loop regex_compiled [] 0%nat lines.

Definition _tags : list str :=
  map lit ["DEBUG"; "FIXME"; "FYI"; "HACK"; "NOTE"; "PLANNED"; "REVIEW";
           "TBD"; "TODO"]%string.

(** [_regex_raw] with [_tags], matched at the head of [s]:
    [((\s|\()(?P<tag>...)(:[^\r\n]))(?P<text>.+)].  No tag is a prefix of
    another, so at most one alternative fits; [.+] takes the characters up
    to the first newline and needs one at least. *)
Definition match_here (s : str) : option (str * str) :=
  match s with
  | c :: s1 =>
      if Str.isspace c || (c =? 40) then
        match find (Str.startswith s1) _tags with
        | Some t =>
            match drop (length t) s1 with
            | colon :: x :: s3 =>
                if (colon =? 58) && negb (x =? 13) && negb (x =? 10) then
                  match Str.take_while (fun c => negb (c =? 10)) s3 with
                  | [] => None
                  | text => Some (t, text)
                  end
                else None
            | _ => None
            end
        | None => None
        end
      else None
  | [] => None
  end.

(** [_COMPILED_RE.search(line)]: the leftmost match. *)
Fixpoint _COMPILED_RE (line : str) : option (str * str) :=
  match match_here line with
  | Some mg => Some mg
  | None =>
      match line with
      | [] => None
      | _ :: line' => _COMPILED_RE line'
      end
  end.

(** Every line searched, none skipped: the comments of [lines] numbered
    from [lineno + 1]. *)
Fixpoint all_comments (regex_compiled : Regex) (lineno : nat) (lines : list str)
  : list _TaggedComment :=
  match lines with
  | [] => []
  | line :: lines' =>
      match regex_compiled line with
      | Some mg =>
          TaggedComment (lineno + 1) (fst mg) (snd mg)
            :: all_comments regex_compiled (S lineno) lines'
      | None => all_comments regex_compiled (S lineno) lines'
      end
  end.

(** *** Files and the report *)

(** What reading a path gives: no file there, a file that is no text in
    the expected encoding ([UnicodeDecodeError]), or its text. *)
Inductive file_read :=
| NotAFile
| Undecodable
| Text (content : str).

Record _Tags (Path : Type) := Tags {
  file_path : Path;
  tagged_comments : list _TaggedComment;
}.

Arguments Tags {Path} _ _.
Arguments file_path {Path} _.
Arguments tagged_comments {Path} _.

(** The loop of [_search_files]; [fs] is the file system. *)
Fixpoint search_files_loop {Path : Type} (fs : Path -> file_read)
    (regex_compiled : Regex) (matches : list (_Tags Path)) (paths_file : list Path)
  : list (_Tags Path) :=
  match paths_file with
  | [] => matches
  | file_path :: paths_file' =>
      let lines :=
        match fs file_path with
        | Text content => Doc.read_lines (Some content)
        | NotAFile => Doc.read_lines None
        | Undecodable => []
        end in
      let comments := _search_lines lines regex_compiled in
      match comments with
      | [] => search_files_loop fs regex_compiled matches paths_file'
      | _ :: _ =>
          search_files_loop fs regex_compiled
            (matches ++ [Tags file_path comments]) paths_file'
      end
  end.

Definition _search_files {Path : Type} (fs : Path -> file_read)
    (paths_file : list Path) (regex_compiled : Regex) : list (_Tags Path) :=
  search_files_loop fs regex_compiled [] paths_file.

(** [str(n)] for a natural number. *)
Definition str_of_nat (n : nat) : str :=
  lit (NilEmpty.string_of_uint (Nat.to_uint n)).

(** The format [>width]: spaces in front, up to [width] characters. *)
Definition rjust (width : nat) (s : str) : str :=
  repeat 32 (width - length s) ++ s.

Definition comment_line (comment : _TaggedComment) : str :=
  lit "    line " ++ rjust 3 (str_of_nat (lineno comment)) ++ lit " "
  ++ rjust 7 (tag comment) ++ lit ": " ++ text comment ++ [Str.nl].

(** [counter[tag] += 1] on a [defaultdict] of zeros: the keys stay in the
    order in which they came. *)
Fixpoint incr (tag : str) (counter : list (str * nat)) : list (str * nat) :=
  match counter with
  | [] => [(tag, 1%nat)]
  | (t, count) :: counter' =>
      if decide (t = tag) then (t, (count + 1)%nat) :: counter'
      else (t, count) :: incr tag counter'
  end.

(** [sorted(..., key=lambda tc: tc.file_path)]: the sort is stable and
    compares keys with [<] only, here [path_lt].  For an order of the paths
    there is one such result, the one of this insertion sort. *)
Fixpoint insert_by {Path : Type} (path_lt : Path -> Path -> bool)
    (x : _Tags Path) (l : list (_Tags Path)) : list (_Tags Path) :=
  match l with
  | [] => [x]
  | y :: l' =>
      if path_lt (file_path y) (file_path x) then y :: insert_by path_lt x l'
      else x :: l
  end.

Definition sorted_by {Path : Type} (path_lt : Path -> Path -> bool)
    (l : list (_Tags Path)) : list (_Tags Path) :=
  foldr (insert_by path_lt) [] l.

(** The inner loop of [_format_report] over the comments of one file. *)
Fixpoint comments_loop (output : str) (counter : list (str * nat))
    (comments : list _TaggedComment) : str * list (str * nat) :=
  match comments with
  | [] => (output, counter)
  | comment :: comments' =>
      comments_loop (output ++ comment_line comment) (incr (tag comment) counter)
        comments'
  end.

(** The outer loop of [_format_report].  [relative_to p base] is
    [str(p.relative_to(base))], and [None] when that raises [ValueError]. *)
Fixpoint report_loop {Path : Type} (relative_to : Path -> Path -> option str)
    (base_dir : Path) (output : str) (counter : list (str * nat))
    (collection : list (_Tags Path)) : option (str * list (str * nat)) :=
  match collection with
  | [] => Some (output, counter)
  | comments :: collection' =>
      match relative_to (file_path comments) base_dir with
      | None => None
      | Some rel =>
          let output := output ++ rel ++ [Str.nl] in
          let oc := comments_loop output counter (tagged_comments comments) in
          report_loop relative_to base_dir (fst oc ++ [Str.nl]) (snd oc) collection'
      end
  end.

Definition summary_item (item : str * nat) : str :=
  fst item ++ lit " (" ++ str_of_nat (snd item) ++ lit ")".

(** [_format_report]; [None] stands for the [ValueError] of
    [relative_to]. *)
Definition _format_report {Path : Type} (path_lt : Path -> Path -> bool)
    (relative_to : Path -> Path -> option str)
    (base_dir : Path) (tagged_collection : list (_Tags Path)) : option str :=
  match report_loop relative_to base_dir [] [] (sorted_by path_lt tagged_collection) with
  | None => None
  | Some (output, counter) =>
      let formatted_summary := Str.join (lit ",  ") (map summary_item counter) in
      match formatted_summary with
      | [] => Some output
      | _ :: _ =>
          Some (output ++ lit "Found tagged comments for " ++ formatted_summary
                ++ [Str.nl])
      end
  end.

(** [counter[tag]] after the loops, zero for a tag that is no key. *)
Fixpoint count_of (t : str) (counter : list (str * nat)) : nat :=
  match counter with
  | [] => 0%nat
  | (t', count) :: counter' =>
      if decide (t' = t) then count else count_of t counter'
  end.

(** The number of comments with the tag [t]. *)
Fixpoint count_comments (t : str) (comments : list _TaggedComment) : nat :=
  match comments with
  | [] => 0%nat
  | comment :: comments' =>
      ((if decide (tag comment = t) then 1 else 0) + count_comments t comments')%nat
  end.

Fixpoint count_collection {Path : Type} (t : str) (collection : list (_Tags Path))
  : nat :=
  match collection with
  | [] => 0%nat
  | comments :: collection' =>
      (count_comments t (tagged_comments comments) + count_collection t collection')%nat
  end.

(** [_create_tag_file]: the summary file after the call, [None] for no
    file.  [found_files] is what [_find_files()] returns, [pkg_name] and
    [path_project] come from [DIG.meta]; the outer [None] stands for the
    [ValueError] of [relative_to], raised before the file is touched. *)
Definition _create_tag_file {Path : Type} (pkg_name : str)
    (path_lt : Path -> Path -> bool) (relative_to : Path -> Path -> option str)
    (path_project : Path) (fs : Path -> file_read) (found_files : list Path)
    (path_tag_summary : option str) : option (option str) :=
  let header :=
    lit "# Task Summary" ++ [Str.nl; Str.nl] ++ lit "Auto-Generated by " ++ pkg_name
    ++ [Str.nl; Str.nl] ++ lit "```log" ++ [Str.nl] in
  let footer := lit "```" ++ [Str.nl] in
  let matches := _search_files fs found_files _COMPILED_RE in
  match _format_report path_lt relative_to path_project matches with
  | None => None
  | Some report =>
      match Str.strip report with
      | _ :: _ => Some (Some (header ++ report ++ footer))
      | [] => Some None
      end
  end.

End TagCollector.

(** ** doit_lint.py *)

Module Lint.

(** How [check_linting_errors] ends. *)
Inductive outcome := Returned | RuntimeError.

(** The two files of [check_linting_errors], [None] for no file:
    [flake8.log] and its backup [flake8-full.log]. *)
Record files := Files {
  flake8_log : option str;
  flake8_full : option str;
}.

(** [if_found_unlink(file_path)] of [base.py]: no file is left. *)
Definition if_found_unlink (file : option str) : option str :=
  match file with
  | Some _ => None
  | None => None
  end.

(** [any(f': {error_code}' in line for error_code in ignore_errors)] *)
Definition ignored (ignore_errors : list str) (line : str) : bool :=
  existsb (fun error_code => Str.contains (lit ": " ++ error_code) line) ignore_errors.

(** [check_linting_errors]: the files after the call and how it ends, from
    the text of the log, the backup before the call and [ignore_errors]. *)
Definition check_linting_errors (log_text : str) (full : option str)
    (ignore_errors : option (list str)) : files * outcome :=
  let log_contents := Str.strip log_text in
  let r :=
    match ignore_errors with
    | Some codes =>
        let full := Some log_contents in
        let lines :=
          List.filter (fun line => negb (ignored codes line))
            (Str.split Str.nl log_contents) in
        let log_contents := Str.join [Str.nl] lines in
        (log_contents, Files (Some log_contents) full)
    | None => (log_contents, Files (Some log_text) (if_found_unlink full))
    end in
  match (length (fst r) =? 0)%nat with
  | false => (snd r, RuntimeError)
  | true => (Files (if_found_unlink (flake8_log (snd r))) (flake8_full (snd r)), Returned)
  end.

End Lint.

Import Doc TagCollector.

(** ** Sample inputs *)

Module Sample.

(** A README with a coverage region. *)
Definition title : str := lit "# calcipy".
Definition opener : str := lit "<!-- COVERAGE -->".
Definition old_table : str := lit "| old | table |".
Definition closer : str := lit "<!-- /COVERAGE -->".
Definition footer : str := lit "Thanks for reading".

Definition readme_lines : list str := [title; opener; old_table; closer; footer].

Definition table : list str :=
  [lit "| File | Coverage |"; lit "| `calcipy/doc.py` | 91.2% |"].

Definition coverage_text : gmap str (list str) := {[ lit "COVERAGE" := table ]}.

(** The same README with the closing comment missing. *)
Definition unterminated_lines : list str := [title; opener; old_table; footer].

(** The compiled pattern made of one group around [.*] (any characters
    but a newline), used through [match]: every line matches and group 1
    is the line up to its first newline. *)
Definition any_line_pattern : Pattern := fun line =>
  Some (Some (Str.take_while (fun c => negb (c =? Str.nl)) line)).

(** A region for this pattern, with an empty replacement. *)
Definition any_lines : list str := [lit "K"; lit "<!-- /K -->"].
Definition any_text : gmap str (list str) := {[ lit "K" := [] ]}.

(** An [__init__.py] with two user lines below the divider. *)
Definition init_file : str :=
  lit "a" ++ [Str.nl] ++ lit "b" ++ [Str.nl] ++ _INIT_DIVIDER ++ [Str.nl]
  ++ lit "c" ++ [Str.nl] ++ lit "d" ++ [Str.nl].

Definition readme_file : str := Str.join [Str.nl] readme_lines.

Definition pkg_name : str := lit "calcipy".
Definition pkg_version : str := lit "0.1.0".

(** The text [_write_pkg_init] generates for the package, before the
    divider. *)
Definition generated : str :=
  _LOGGER_CONFIG (quotes3 ++ pkg_name ++ lit "." ++ quotes3) pkg_version pkg_name.

(** Source files for the tag scan. *)
Definition skipped_file : list str :=
  [lit "# :skip_tags:"; lit "# TODO: fix this"].

Definition late_directive_file : list str :=
  [lit "import re"; lit ""; lit "# NOTE: keep"; lit "x = 1"; lit "# :skip_tags:";
   lit "# TODO: fix this"].

Definition tagged_directive_file : list str :=
  [lit "# FIXME: first"; lit "# TODO: second :skip_tags:"; lit "# HACK: third"].

(** A small project: paths are strings, compared character by character,
    and relative to a directory when they start with its name and a
    slash. *)
Fixpoint str_ltb (a b : str) : bool :=
  match a, b with
  | _, [] => false
  | [], _ :: _ => true
  | x :: a', y :: b' => (x <? y) || ((x =? y) && str_ltb a' b')
  end.

Definition relative_to (p base : str) : option str :=
  if Str.startswith p (base ++ lit "/") then Some (drop (length base + 1) p)
  else None.

Definition project : str := lit "/repo".

Definition project_fs (p : str) : file_read :=
  if decide (p = lit "/repo/b.py") then
    Text (lit "# FIXME: first" ++ [Str.nl] ++ lit "x = 1  # TODO: second")
  else if decide (p = lit "/repo/a.py") then Text (lit "y = 2 # TODO: third")
  else if decide (p = lit "/repo/plain.py") then Text (lit "z = 3")
  else if decide (p = lit "/repo/logo.png") then Undecodable
  else NotAFile.

Definition project_files : list str :=
  [lit "/repo/b.py"; lit "/repo/logo.png"; lit "/repo/plain.py"; lit "/repo/a.py"].

Definition project_report : str :=
  match _format_report str_ltb relative_to project
          (_search_files project_fs project_files _COMPILED_RE) with
  | Some report => report
  | None => []
  end.

(** The README after the splice of the coverage table. *)
Definition readme_spliced : list str :=
  [title; opener; []] ++ table ++ [[]; closer; footer].

(** A README that embeds the example script and closes the region with
    the marker of another file. *)
Definition code_text : gmap str (list str) :=
  {[ lit "CODE:" ++ fn := [lit "```py"; lit "x = 1"; lit "```"] ]}.

Definition code_lines : list str :=
  [code_marker [] false fn; lit "old code"; code_marker [] true (lit "other.py");
   lit "the end"].

(** A README that embeds another file than the example script. *)
Definition other_readme : str :=
  code_marker (lit "  ") false (lit "docs/other.py") ++ [Str.nl]
  ++ code_marker (lit "  ") true (lit "docs/other.py").

(** The rows and the time stamp of a coverage report with one file. *)
Definition file_rows : list (list str) :=
  [[lit "`calcipy/doc.py`"; lit "120"; lit "10"; lit "0"; lit "91.7%"]].

Definition timestamp : str := lit "2021-01-10T12:00:00".

Definition coverage_out : str :=
  match _write_coverage_to_readme (Some (file_rows, timestamp)) (Some readme_file) with
  | inr (Some text) => text
  | _ => []
  end.

(** A log of flake8 with a line to ignore and one to keep. *)
Definition lint_log : str :=
  lit "a.py:1:1: E800 Found commented out code" ++ [Str.nl]
  ++ lit "a.py:2:1: F401 imported but unused" ++ [Str.nl].

End Sample.

(** * Properties *)

(** ** The error monad *)

Lemma bind_inr {A B} (m : result A) (k : A -> result B) (b : B) :
  bind m k = inr b -> exists a, m = inr a /\ k a = inr b.
Proof. destruct m as [e | a]; simpl; [discriminate | eauto]. Qed.

Lemma bind_assoc {A B C} (m : result A) (k : A -> result B) (h : B -> result C) :
  bind (bind m k) h = bind m (fun a => bind (k a) h).
Proof. now destruct m. Qed.

(** ** The state machine of [parse] *)

Section Parse.

Variable comment_pattern : Pattern.
Variable new_text : gmap str (list str).

Local Abbreviation emit := (emit comment_pattern new_text).
Local Abbreviation emits := (emits comment_pattern new_text).
Local Abbreviation parse_line := (parse_line comment_pattern new_text).
Local Abbreviation parse_loop := (parse_loop comment_pattern new_text).

Lemma end_new acc : end_ (Machine new acc) = ret (Machine readme acc).
Proof. reflexivity. Qed.

Lemma end_readme acc : end_ (Machine readme acc) = raise (MachineError "end" readme).
Proof. reflexivity. Qed.

Lemma start_new_readme acc : start_new (Machine readme acc) = ret (Machine new acc).
Proof. reflexivity. Qed.

Lemma start_new_new acc :
  start_new (Machine new acc) = raise (MachineError "start_new" new).
Proof. reflexivity. Qed.

Lemma last_block (acc : list str) (line : str) (v : list str) :
  last (acc ++ line :: [] :: v ++ [[]]) = Some [].
Proof.
  replace (acc ++ line :: [] :: v ++ [[]]) with ((acc ++ line :: [] :: v) ++ [[]]).
  - apply last_snoc.
  - now rewrite <- app_assoc.
Qed.

(** One iteration of the loop adds what [emit] says, as long as the list
    is not empty in state ['new']. *)
Lemma parse_line_emit st acc line :
  (st = new -> acc <> []) ->
  parse_line (Machine st acc) line =
    let* r := emit st line in ret (Machine (fst r) (acc ++ snd r)).
Proof.
  intros Hinv. unfold Doc.parse_line, Doc.emit, is_closer.
  destruct (comment_pattern line) as [group1 |]; simpl.
  - destruct (Str.startswith (Str.strip line) (lit "<!-- /")).
    + destruct st; simpl; [reflexivity |].
      unfold append; simpl. now rewrite last_snoc.
    + destruct (getitem new_text group1) as [e | v]; simpl; [reflexivity |].
      destruct st; simpl; [| reflexivity].
      unfold extend, append; simpl.
      rewrite <- app_assoc. simpl. now rewrite last_block.
  - destruct st; simpl.
    + now rewrite last_snoc.
    + rewrite app_nil_r. destruct (last acc) eqn:Hl; [reflexivity |].
      apply last_None in Hl. now destruct Hinv.
Qed.

Lemma emit_new st line st' d :
  emit st line = inr (st', d) -> st' = new -> d <> [] \/ st = new.
Proof.
  unfold Doc.emit. intros H Hst'.
  destruct (comment_pattern line); [destruct (is_closer line) |].
  - destruct st; simpl in H; [discriminate |]. now right.
  - destruct (getitem new_text o); simpl in H; [discriminate |].
    destruct st; simpl in H; [| discriminate].
    injection H as _ <-. now left.
  - destruct st; simpl in H; injection H as <- <-; [discriminate | now right].
Qed.

Lemma parse_loop_emits lines : forall st acc,
  (st = new -> acc <> []) ->
  parse_loop (Machine st acc) lines =
    let* r := emits st lines in ret (Machine (fst r) (acc ++ snd r)).
Proof.
  induction lines as [| line lines IH]; intros st acc Hinv; simpl.
  - now rewrite app_nil_r.
  - rewrite parse_line_emit by assumption.
    destruct (emit st line) as [e | [st1 d1]] eqn:He; simpl; [reflexivity |].
    rewrite IH.
    + destruct (emits st1 lines) as [e | [st2 d2]]; simpl; [reflexivity |].
      now rewrite app_assoc.
    + intros ->. destruct (emit_new _ _ _ _ He eq_refl) as [Hd | ->].
      * intros Happ. apply app_eq_nil in Happ. now destruct Happ.
      * intros Happ. apply app_eq_nil in Happ. destruct Happ. now apply Hinv.
Qed.

Lemma parse_init_emits lines :
  parse init lines comment_pattern new_text =
    let* r := emits readme lines in ret (Machine (fst r) (snd r)).
Proof.
  unfold parse. simpl. rewrite parse_loop_emits by discriminate. reflexivity.
Qed.

Lemma splice_emits lines :
  splice lines comment_pattern new_text =
    let* r := emits readme lines in ret (snd r).
Proof.
  unfold splice. rewrite parse_init_emits.
  now destruct (emits readme lines) as [e | [st d]].
Qed.

(** [readme_lines[-1]] never fails in [_ReadMeMachine().parse]. *)
Lemma splice_no_IndexError lines :
  splice lines comment_pattern new_text <> inl IndexError.
Proof.
  rewrite splice_emits.
  assert (H : forall ls st, emits st ls <> inl IndexError).
  { induction ls as [| l ls IH]; intros st; simpl; [discriminate |].
    destruct (emit st l) as [e | [st1 d1]] eqn:He; simpl.
    - unfold Doc.emit in He.
      destruct (comment_pattern l); [destruct (is_closer l) |].
      + destruct st; simpl in He; [| discriminate]. now injection He as <-.
      + destruct o as [k |]; simpl in He.
        * destruct (new_text !! k); simpl in He.
          -- destruct st; simpl in He; [discriminate |]. now injection He as <-.
          -- now injection He as <-.
        * now injection He as <-.
      + destruct st; discriminate.
    - specialize (IH st1). destruct (emits st1 ls) as [e | r]; simpl; [| discriminate].
      intros [= ->]. now apply IH. }
  specialize (H lines readme).
  destruct (emits readme lines); simpl; [| discriminate].
  intros [= ->]. now apply H.
Qed.

Lemma emits_cons st l ls :
  emits st (l :: ls) =
    let* r := emit st l in
    let* r' := emits (fst r) ls in
    ret (fst r', snd r ++ snd r').
Proof. reflexivity. Qed.

Lemma emits_app l1 : forall st l2,
  emits st (l1 ++ l2) =
    let* r1 := emits st l1 in
    let* r2 := emits (fst r1) l2 in
    ret (fst r2, snd r1 ++ snd r2).
Proof.
  induction l1 as [| l l1 IH]; intros st l2; simpl.
  - now destruct (emits st l2) as [e | [st2 d2]].
  - destruct (emit st l) as [e | [st1 d1]]; simpl; [reflexivity |].
    rewrite IH.
    destruct (emits st1 l1) as [e | [st2 d2]]; simpl; [reflexivity |].
    destruct (emits st2 l2) as [e | [st3 d3]]; simpl; [reflexivity |].
    now rewrite app_assoc.
Qed.

(** Lines the pattern does not match, read in state ['new'], add nothing. *)
Lemma emits_new_unmatched ls :
  (forall l, In l ls -> comment_pattern l = None) ->
  emits new ls = ret (new, []).
Proof.
  induction ls as [| l ls IH]; intros H; simpl; [reflexivity |].
  unfold Doc.emit. rewrite (H l) by now left. simpl.
  rewrite IH; [reflexivity |]. intros l' Hl'. apply H. now right.
Qed.

Lemma getitem_inr key v :
  getitem new_text key = inr v -> exists K, key = Some K /\ new_text !! K = Some v.
Proof.
  unfold getitem. destruct key as [K |]; [| discriminate].
  destruct (new_text !! K) eqn:HK; [| discriminate].
  intros [= <-]. eauto.
Qed.

(** In state ['new'] a matched line that is no closer raises. *)
Lemma emit_new_opener line group1 :
  comment_pattern line = Some group1 -> is_closer line = false ->
  exists e, emit new line = inl e.
Proof.
  intros Hm Hc. unfold Doc.emit. rewrite Hm, Hc.
  destruct (getitem new_text group1); simpl; eauto.
Qed.

Lemma emits_new_no_closer rest : forall st d,
  (forall l, In l rest -> comment_pattern l <> None -> is_closer l = false) ->
  emits new rest = inr (st, d) -> st = new /\ d = [].
Proof.
  induction rest as [| l rest IH]; intros st d Hnc; simpl.
  - now intros [= <- <-].
  - intros H. apply bind_inr in H as ([st1 d1] & He & H).
    apply bind_inr in H as ([st2 d2] & Hes & H). simpl in *.
    injection H as <- <-.
    destruct (comment_pattern l) as [g |] eqn:Hm.
    + destruct (emit_new_opener l g Hm) as [e He'].
      * apply Hnc; [now left | congruence].
      * congruence.
    + unfold Doc.emit in He. rewrite Hm in He. simpl in He.
      injection He as <- <-.
      apply IH in Hes; [| intros l' Hl'; apply Hnc; now right].
      destruct Hes as [-> ->]. now split.
Qed.

Lemma emits_sublist lines : forall st st' d,
  emits st lines = inr (st', d) ->
  sublist (outside comment_pattern st lines) d.
Proof.
  induction lines as [| l lines IH]; intros st st' d; simpl.
  - intros [= <- <-]. constructor.
  - intros H. apply bind_inr in H as ([st1 d1] & He & H).
    apply bind_inr in H as ([st2 d2] & Hes & H). simpl in *.
    injection H as <- <-. apply IH in Hes.
    unfold Doc.emit in He.
    destruct (comment_pattern l) as [g |]; [destruct (is_closer l) |].
    + destruct st; simpl in He; [discriminate |].
      injection He as <- <-. now apply sublist_inserts_l.
    + destruct (getitem new_text g); simpl in He; [discriminate |].
      destruct st; simpl in He; [| discriminate].
      injection He as <- <-. now apply sublist_inserts_l.
    + destruct st; simpl in He; injection He as <- <-; simpl.
      * now apply sublist_skip.
      * assumption.
Qed.

(** Reading again what one line added gives the same lines and state. *)
Lemma emit_stable st line st1 d1 :
  comment_pattern [] = None ->
  (forall K v l, new_text !! K = Some v -> In l v -> comment_pattern l = None) ->
  emit st line = inr (st1, d1) -> emits st d1 = inr (st1, d1).
Proof.
  intros Hblank Hrepl He. pose proof He as He0. unfold Doc.emit in He.
  destruct (comment_pattern line) as [g |] eqn:Hm; [destruct (is_closer line) eqn:Hc |].
  - destruct st; simpl in He; [discriminate |].
    injection He as <- <-. simpl. now rewrite He0.
  - destruct (getitem new_text g) as [e | v] eqn:Hg; simpl in He; [discriminate |].
    destruct st; simpl in He; [| discriminate].
    injection He as <- <-. rewrite emits_cons, He0.
    cbv beta iota delta [bind fst snd].
    rewrite emits_new_unmatched; [simpl; now rewrite app_nil_r |].
    apply getitem_inr in Hg as (K & -> & HK).
    intros l [<- | Hl]; [assumption |].
    apply in_app_or in Hl as [Hl | [<- | []]]; [| assumption].
    now apply (Hrepl K v).
  - destruct st; simpl in He; injection He as <- <-; simpl.
    + now rewrite He0.
    + reflexivity.
Qed.

Lemma emits_stable lines : forall st st' d,
  comment_pattern [] = None ->
  (forall K v l, new_text !! K = Some v -> In l v -> comment_pattern l = None) ->
  emits st lines = inr (st', d) -> emits st d = inr (st', d).
Proof.
  induction lines as [| l lines IH]; intros st st' d Hblank Hrepl; simpl.
  - now intros [= <- <-].
  - intros H. apply bind_inr in H as ([st1 d1] & He & H).
    apply bind_inr in H as ([st2 d2] & Hes & H). simpl in *.
    injection H as <- <-.
    rewrite emits_app, (emit_stable _ _ _ _ Hblank Hrepl He). simpl.
    now rewrite (IH _ _ _ Hblank Hrepl Hes).
Qed.

Lemma emits_missing_key l group1 lines : forall st,
  In l lines -> comment_pattern l = Some group1 -> is_closer l = false ->
  (forall K, group1 = Some K -> new_text !! K = None) ->
  exists e, emits st lines = inl e.
Proof.
  induction lines as [| l' lines IH]; intros st Hin Hm Hc Hk; [destruct Hin |].
  simpl. destruct Hin as [-> | Hin].
  - unfold Doc.emit. rewrite Hm, Hc.
    destruct (getitem new_text group1) as [e | v] eqn:Hg; simpl; [eauto |].
    apply getitem_inr in Hg as (K & -> & HK). rewrite (Hk K eq_refl) in HK. discriminate.
  - destruct (emit st l') as [e | [st1 d1]]; simpl; [eauto |].
    destruct (IH st1 Hin Hm Hc Hk) as [e ->]. simpl. eauto.
Qed.

(** C1: when an opener with key [K] is read in state ['readme'], the
    output between that opener and its closer (the next line the pattern
    matches) is a blank line, the lines of [new_text[K]] and a blank line,
    and they are already there when the opener has been read. *)
Theorem opener_block_injected
    (pre : list str) (o : str) (mid : list str) (c : str)
    (post out out_pre : list str) (group1 : option str) :
  splice (pre ++ o :: mid ++ c :: post) comment_pattern new_text = inr out ->
  parse init pre comment_pattern new_text = inr (Machine readme out_pre) ->
  comment_pattern o = Some group1 ->
  is_closer o = false ->
  (forall l, In l mid -> comment_pattern l = None) ->
  comment_pattern c <> None ->
  exists K v out_post,
    group1 = Some K /\ new_text !! K = Some v /\ is_closer c = true /\
    parse init (pre ++ [o]) comment_pattern new_text
      = inr (Machine new (out_pre ++ o :: [] :: v ++ [[]])) /\
    splice post comment_pattern new_text = inr out_post /\
    out = out_pre ++ o :: ([] :: v ++ [[]]) ++ c :: out_post.
Proof.
  intros Hout Hpre Hm Hc Hmid Hcm.
  rewrite splice_emits in Hout. rewrite parse_init_emits in Hpre.
  destruct (emits readme pre) as [e | [st0 d0]] eqn:Hpre'; [discriminate |].
  simpl in Hpre. injection Hpre as -> ->.
  rewrite emits_app, Hpre' in Hout. simpl in Hout.
  unfold Doc.emit in Hout at 1. rewrite Hm, Hc in Hout.
  destruct (getitem new_text group1) as [e | v] eqn:Hg; [discriminate |].
  simpl in Hout. apply getitem_inr in Hg as (K & -> & HK).
  rewrite emits_app, (emits_new_unmatched mid Hmid) in Hout. simpl in Hout.
  destruct (comment_pattern c) as [gc |] eqn:Hcc; [| contradiction].
  destruct (is_closer c) eqn:Hclose.
  - unfold Doc.emit in Hout. rewrite Hcc, Hclose in Hout. simpl in Hout.
    destruct (emits readme post) as [e | [st2 d2]] eqn:Hpost; [discriminate |].
    simpl in Hout. injection Hout as <-.
    exists K, v, d2.
    split; [reflexivity |]. split; [assumption |]. split; [reflexivity |].
    split; [| split].
    + rewrite parse_init_emits, emits_app, Hpre'. simpl.
      unfold Doc.emit. rewrite Hm, Hc. simpl. rewrite HK. simpl.
      now rewrite app_nil_r.
    + rewrite splice_emits. now rewrite Hpost.
    + simpl. now rewrite <- app_assoc.
  - destruct (emit_new_opener c gc Hcc Hclose) as [e He].
    rewrite He in Hout. discriminate.
Qed.

(** C2: the lines read in state ['readme'] that the pattern does not
    match are in the output, unchanged and in their order; each of them
    stands right after the output of the lines before it and right before
    the output of the lines after it. *)
Theorem passthrough_lines_kept (lines out : list str) :
  splice lines comment_pattern new_text = inr out ->
  sublist (outside comment_pattern readme lines) out /\
  forall pre l post out_pre,
    lines = pre ++ l :: post ->
    parse init pre comment_pattern new_text = inr (Machine readme out_pre) ->
    comment_pattern l = None ->
    exists out_post,
      splice post comment_pattern new_text = inr out_post /\
      out = out_pre ++ l :: out_post.
Proof.
  intros Hout. rewrite splice_emits in Hout.
  destruct (emits readme lines) as [e | [st d]] eqn:Hes; [discriminate |].
  simpl in Hout. injection Hout as <-. split.
  - now apply (emits_sublist lines readme st).
  - intros pre l post out_pre -> Hpre Hm.
    rewrite parse_init_emits in Hpre.
    destruct (emits readme pre) as [e | [st0 d0]] eqn:Hpre'; [discriminate |].
    simpl in Hpre. injection Hpre as -> ->.
    rewrite emits_app, Hpre' in Hes. simpl in Hes.
    unfold Doc.emit in Hes. rewrite Hm in Hes. simpl in Hes.
    destruct (emits readme post) as [e | [st2 d2]] eqn:Hpost; [discriminate |].
    simpl in Hes. injection Hes as <- <-.
    exists d2. split; [| reflexivity].
    rewrite splice_emits. now rewrite Hpost.
Qed.

(** C3 (as amended): when neither the blank line nor any line of the
    replacement map matches the pattern, splicing the output of a splice
    again gives that output. *)
Theorem splice_idempotent (lines out : list str) :
  comment_pattern [] = None ->
  (forall K v l, new_text !! K = Some v -> In l v -> comment_pattern l = None) ->
  splice lines comment_pattern new_text = inr out ->
  splice out comment_pattern new_text = inr out.
Proof.
  intros Hblank Hrepl Hout. rewrite splice_emits in Hout.
  destruct (emits readme lines) as [e | [st d]] eqn:Hes; [discriminate |].
  simpl in Hout. injection Hout as <-.
  rewrite splice_emits, (emits_stable _ _ _ _ Hblank Hrepl Hes). reflexivity.
Qed.

(** C4: a line with an opener whose key is not in the replacement map
    makes the splice raise; when the lines before it are read without an
    error, the exception is the [KeyError] of that key. *)
Theorem missing_key_raises (lines : list str) (l : str) (group1 : option str) :
  In l lines ->
  comment_pattern l = Some group1 ->
  is_closer l = false ->
  (forall K, group1 = Some K -> new_text !! K = None) ->
  (exists e, splice lines comment_pattern new_text = inl e) /\
  forall pre post m,
    lines = pre ++ l :: post ->
    parse init pre comment_pattern new_text = inr m ->
    splice lines comment_pattern new_text = inl (KeyError group1).
Proof.
  intros Hin Hm Hc Hk. split.
  - destruct (emits_missing_key l group1 lines readme Hin Hm Hc Hk) as [e He].
    exists e. rewrite splice_emits, He. reflexivity.
  - intros pre post m -> Hpre. rewrite parse_init_emits in Hpre.
    destruct (emits readme pre) as [e | [st0 d0]] eqn:Hpre'; [discriminate |].
    rewrite splice_emits, emits_app, Hpre'. simpl.
    unfold Doc.emit. rewrite Hm, Hc.
    destruct (getitem new_text group1) as [e | v] eqn:Hg; simpl.
    + unfold getitem in Hg. destruct group1 as [K |]; [| now injection Hg as <-].
      rewrite (Hk K eq_refl) in Hg. now injection Hg as <-.
    + apply getitem_inr in Hg as (K & -> & HK).
      rewrite (Hk K eq_refl) in HK. discriminate.
Qed.

(** C9: after an opener read in state ['readme'] that no closer follows,
    nothing of the rest of the input reaches the output: a splice that
    returns, returns the output of the lines before the opener, the
    opener and its block, and it does return when the pattern matches no
    later line. *)
Theorem unterminated_region_drops_rest
    (pre : list str) (o : str) (rest out_pre : list str) (group1 : option str) :
  parse init pre comment_pattern new_text = inr (Machine readme out_pre) ->
  comment_pattern o = Some group1 ->
  is_closer o = false ->
  (forall l, In l rest -> comment_pattern l <> None -> is_closer l = false) ->
  (forall out,
     splice (pre ++ o :: rest) comment_pattern new_text = inr out ->
     exists K v, group1 = Some K /\ new_text !! K = Some v /\
                 out = out_pre ++ o :: [] :: v ++ [[]]) /\
  (forall K v,
     group1 = Some K -> new_text !! K = Some v ->
     (forall l, In l rest -> comment_pattern l = None) ->
     splice (pre ++ o :: rest) comment_pattern new_text
       = inr (out_pre ++ o :: [] :: v ++ [[]])).
Proof.
  intros Hpre Hm Hc Hnc. rewrite parse_init_emits in Hpre.
  destruct (emits readme pre) as [e | [st0 d0]] eqn:Hpre'; [discriminate |].
  simpl in Hpre. injection Hpre as -> ->. split.
  - intros out Hout.
    rewrite splice_emits, emits_app, Hpre' in Hout. simpl in Hout.
    unfold Doc.emit in Hout at 1. rewrite Hm, Hc in Hout.
    destruct (getitem new_text group1) as [e | v] eqn:Hg; [discriminate |].
    simpl in Hout. apply getitem_inr in Hg as (K & -> & HK).
    destruct (emits new rest) as [e | [st2 d2]] eqn:Hrest; [discriminate |].
    apply emits_new_no_closer in Hrest as [-> ->]; [| assumption].
    simpl in Hout. injection Hout as <-.
    exists K, v. rewrite app_nil_r. auto.
  - intros K v -> HK Hrest.
    rewrite splice_emits, emits_app, Hpre'. simpl.
    unfold Doc.emit at 1. rewrite Hm, Hc. simpl. rewrite HK. simpl.
    rewrite (emits_new_unmatched rest Hrest). simpl. now rewrite app_nil_r.
Qed.

End Parse.

(** Witnesses and the counterexample for the splice. *)

Lemma opener_block_injected_witness :
  exists K v out_post,
    Some (lit "COVERAGE") = Some K /\ Sample.coverage_text !! K = Some v /\
    is_closer Sample.closer = true /\
    parse init ([Sample.title] ++ [Sample.opener]) coverage_pattern Sample.coverage_text
      = inr (Machine new ([Sample.title] ++ Sample.opener :: [] :: v ++ [[]])) /\
    splice [Sample.footer] coverage_pattern Sample.coverage_text = inr out_post /\
    [Sample.title; Sample.opener; []; lit "| File | Coverage |";
     lit "| `calcipy/doc.py` | 91.2% |"; []; Sample.closer; Sample.footer]
      = [Sample.title] ++ Sample.opener :: ([] :: v ++ [[]]) ++ Sample.closer :: out_post.
Proof.
  apply (opener_block_injected coverage_pattern Sample.coverage_text
           [Sample.title] Sample.opener [Sample.old_table] Sample.closer [Sample.footer]).
  - vm_compute. reflexivity.
  - vm_compute. reflexivity.
  - vm_compute. reflexivity.
  - vm_compute. reflexivity.
  - intros l [<- | []]. vm_compute. reflexivity.
  - vm_compute. discriminate.
Defined.

Lemma passthrough_lines_kept_witness :
  outside coverage_pattern readme Sample.readme_lines = [Sample.title; Sample.footer] /\
  sublist (outside coverage_pattern readme Sample.readme_lines)
    [Sample.title; Sample.opener; []; lit "| File | Coverage |";
     lit "| `calcipy/doc.py` | 91.2% |"; []; Sample.closer; Sample.footer] /\
  exists out_post,
    splice [] coverage_pattern Sample.coverage_text = inr out_post /\
    [Sample.title; Sample.opener; []; lit "| File | Coverage |";
     lit "| `calcipy/doc.py` | 91.2% |"; []; Sample.closer; Sample.footer]
    = [Sample.title; Sample.opener; []; lit "| File | Coverage |";
       lit "| `calcipy/doc.py` | 91.2% |"; []; Sample.closer]
      ++ Sample.footer :: out_post.
Proof.
  split; [vm_compute; reflexivity |].
  pose proof (passthrough_lines_kept coverage_pattern Sample.coverage_text
                Sample.readme_lines
                [Sample.title; Sample.opener; []; lit "| File | Coverage |";
                 lit "| `calcipy/doc.py` | 91.2% |"; []; Sample.closer; Sample.footer])
    as H.
  destruct H as [Hsub Hpos]; [vm_compute; reflexivity |].
  split; [exact Hsub |].
  apply (Hpos [Sample.title; Sample.opener; Sample.old_table; Sample.closer]
              Sample.footer []).
  - reflexivity.
  - vm_compute. reflexivity.
  - vm_compute. reflexivity.
Defined.

Lemma splice_idempotent_witness :
  splice [Sample.title; Sample.opener; []; lit "| File | Coverage |";
          lit "| `calcipy/doc.py` | 91.2% |"; []; Sample.closer; Sample.footer]
    coverage_pattern Sample.coverage_text
  = inr [Sample.title; Sample.opener; []; lit "| File | Coverage |";
         lit "| `calcipy/doc.py` | 91.2% |"; []; Sample.closer; Sample.footer].
Proof.
  apply (splice_idempotent coverage_pattern Sample.coverage_text Sample.readme_lines).
  - vm_compute. reflexivity.
  - intros K v l HK Hl. unfold Sample.coverage_text in HK.
    apply lookup_singleton_Some in HK as [_ <-].
    destruct Hl as [<- | [<- | []]]; vm_compute; reflexivity.
  - vm_compute. reflexivity.
Defined.

(** C3 (counterexample): with the pattern that matches every line, a
    region whose replacement has no lines is well formed, and splicing its
    output again raises: the blank line after the opener is read as an
    opener with the key [''], which the map does not have. *)
Lemma splice_twice_raises_when_blank_matches :
  (forall K v l,
     Sample.any_text !! K = Some v -> In l v -> Sample.any_line_pattern l = None) /\
  is_closer (lit "K") = false /\ is_closer (lit "<!-- /K -->") = true /\
  splice Sample.any_lines Sample.any_line_pattern Sample.any_text
    = inr [lit "K"; []; []; lit "<!-- /K -->"] /\
  splice [lit "K"; []; []; lit "<!-- /K -->"] Sample.any_line_pattern Sample.any_text
    = inl (KeyError (Some [])).
Proof.
  split; [| repeat split; vm_compute; reflexivity].
  intros K v l HK Hl. unfold Sample.any_text in HK.
  apply lookup_singleton_Some in HK as [_ <-]. destruct Hl.
Qed.

Lemma missing_key_raises_witness :
  (exists e, splice Sample.readme_lines coverage_pattern ∅ = inl e) /\
  splice Sample.readme_lines coverage_pattern ∅ = inl (KeyError (Some (lit "COVERAGE"))).
Proof.
  pose proof (missing_key_raises coverage_pattern ∅ Sample.readme_lines Sample.opener
                (Some (lit "COVERAGE"))) as H.
  destruct H as [H1 H2].
  - right. left. reflexivity.
  - vm_compute. reflexivity.
  - vm_compute. reflexivity.
  - intros K _. apply lookup_empty.
  - split; [exact H1 |].
    apply (H2 [Sample.title] [Sample.old_table; Sample.closer; Sample.footer]
              (Machine readme [Sample.title])).
    + reflexivity.
    + vm_compute. reflexivity.
Defined.

Lemma unterminated_region_drops_rest_witness :
  splice Sample.unterminated_lines coverage_pattern Sample.coverage_text
  = inr ([Sample.title] ++ Sample.opener :: [] :: Sample.table ++ [[]]).
Proof.
  pose proof (unterminated_region_drops_rest coverage_pattern Sample.coverage_text
                [Sample.title] Sample.opener [Sample.old_table; Sample.footer]
                [Sample.title] (Some (lit "COVERAGE"))) as H.
  destruct H as [_ H].
  - vm_compute. reflexivity.
  - vm_compute. reflexivity.
  - vm_compute. reflexivity.
  - intros l [<- | [<- | []]] H; exfalso; apply H; vm_compute; reflexivity.
  - apply (H (lit "COVERAGE") Sample.table).
    + reflexivity.
    + vm_compute. reflexivity.
    + intros l [<- | [<- | []]]; vm_compute; reflexivity.
Defined.

(** ** Strings *)

Lemma split_not_nil (sep : char) (s : str) : Str.split sep s <> [].
Proof.
  destruct s as [| c s]; simpl; [discriminate |].
  destruct (c =? sep); [discriminate |].
  destruct (Str.split sep s); discriminate.
Qed.

(** [split] and [join] on the same separator are inverse on a text. *)
Lemma join_split (sep : char) (s : str) : Str.join [sep] (Str.split sep s) = s.
Proof.
  induction s as [| c s IH]; simpl; [reflexivity |].
  destruct (c =? sep) eqn:Hc.
  - apply N.eqb_eq in Hc as ->.
    pose proof (split_not_nil sep s) as Hne.
    destruct (Str.split sep s) as [| l ls]; [contradiction |].
    simpl in *. now rewrite IH.
  - pose proof (split_not_nil sep s) as Hne.
    destruct (Str.split sep s) as [| l ls]; [contradiction |].
    destruct ls as [| l' ls]; simpl in *; now rewrite <- IH.
Qed.

Lemma lstrip_head (s : str) (c : char) (t : str) :
  Str.lstrip s = c :: t -> Str.isspace c = false.
Proof.
  induction s as [| a s IH]; simpl; [discriminate |].
  destruct (Str.isspace a) eqn:Ha; [assumption |].
  now intros [= <- _].
Qed.

Lemma rev_strip (s : str) : rev (Str.strip s) = Str.lstrip (rev (Str.lstrip s)).
Proof. unfold Str.strip, Str.rstrip. apply rev_involutive. Qed.

(** A stripped text followed by a newline ends in one newline only. *)
Lemma single_trailing_newline_strip (s : str) :
  single_trailing_newline (Str.strip s ++ [Str.nl]) = true.
Proof.
  unfold single_trailing_newline. rewrite rev_app_distr. simpl.
  destruct (rev (Str.strip s)) as [| c r] eqn:Hr; [reflexivity |].
  rewrite rev_strip in Hr. apply lstrip_head in Hr.
  destruct (c =? Str.nl) eqn:Hc; [| reflexivity].
  apply N.eqb_eq in Hc as ->. discriminate.
Qed.

(** ** The README file and the package [__init__.py] *)

Lemma emits_readme_unmatched (comment_pattern : Pattern)
    (new_text : gmap str (list str)) (ls : list str) :
  (forall l, In l ls -> comment_pattern l = None) ->
  emits comment_pattern new_text readme ls = ret (readme, ls).
Proof.
  induction ls as [| l ls IH]; intros H; simpl; [reflexivity |].
  unfold emit. rewrite (H l) by now left. simpl.
  rewrite IH; [reflexivity |]. intros l' Hl'. apply H. now right.
Qed.

Lemma index_divider (divider : str) (pre suffix : list str) :
  ~ In divider pre ->
  Str.index divider (pre ++ divider :: suffix) = Some (length pre).
Proof.
  induction pre as [| l pre IH]; intros Hpre; simpl.
  - now rewrite decide_True.
  - rewrite decide_False by (intros ->; apply Hpre; now left).
    rewrite IH; [reflexivity |]. intros Hin. apply Hpre. now right.
Qed.

(** What the merge writes when the divider is a line of the old file: the
    lines after it, joined, right behind the divider of the new text. *)
Lemma merge_divider_found (pre suffix : list str) (generated divider : str) :
  ~ In divider pre ->
  merge (pre ++ divider :: suffix) generated divider
  = Str.strip (Str.replace Str.tab (lit "    ") (generated ++ [Str.nl] ++ divider)
               ++ Str.join [Str.nl] suffix) ++ [Str.nl].
Proof.
  intros Hpre. unfold merge. rewrite index_divider by assumption.
  replace (drop (length pre + 1) (pre ++ divider :: suffix)) with suffix; [reflexivity |].
  clear Hpre. induction pre as [| l pre IH]; simpl; [reflexivity | assumption].
Qed.

(** C5: on an [__init__.py] whose lines are [a], [b], the divider, [c] and
    [d], the merge writes the first user line on the line of the divider:
    the result is not the text with the divider on a line of its own. *)
Theorem merge_joins_divider_and_suffix :
  Str.split Str.nl (Str.strip Sample.init_file)
    = [lit "a"; lit "b"; _INIT_DIVIDER; lit "c"; lit "d"] /\
  merge [lit "a"; lit "b"; _INIT_DIVIDER; lit "c"; lit "d"] Sample.generated _INIT_DIVIDER
    = Sample.generated ++ [Str.nl] ++ _INIT_DIVIDER ++ lit "c" ++ [Str.nl] ++ lit "d"
      ++ [Str.nl] /\
  merge [lit "a"; lit "b"; _INIT_DIVIDER; lit "c"; lit "d"] Sample.generated _INIT_DIVIDER
    <> Str.strip (Sample.generated ++ [Str.nl] ++ _INIT_DIVIDER ++ [Str.nl]
                  ++ lit "c" ++ [Str.nl] ++ lit "d") ++ [Str.nl].
Proof.
  split; [| split].
  - vm_compute. reflexivity.
  - vm_compute. reflexivity.
  - intros H. apply (f_equal (@length N)) in H. vm_compute in H. discriminate.
Qed.

(** C6: writing the same [__init__.py] twice does not give what writing it
    once gives: the second run finds no line equal to the divider and drops
    the user lines. *)
Theorem write_pkg_init_twice_differs :
  _write_pkg_init Sample.pkg_name Sample.pkg_version Sample.init_file
    = Sample.generated ++ [Str.nl] ++ _INIT_DIVIDER ++ lit "c" ++ [Str.nl] ++ lit "d"
      ++ [Str.nl] /\
  Str.index _INIT_DIVIDER
    (Str.split Str.nl
       (Str.strip (_write_pkg_init Sample.pkg_name Sample.pkg_version Sample.init_file)))
    = None /\
  _write_pkg_init Sample.pkg_name Sample.pkg_version
    (_write_pkg_init Sample.pkg_name Sample.pkg_version Sample.init_file)
    = Sample.generated ++ [Str.nl] ++ _INIT_DIVIDER ++ [Str.nl] /\
  _write_pkg_init Sample.pkg_name Sample.pkg_version
    (_write_pkg_init Sample.pkg_name Sample.pkg_version Sample.init_file)
    <> _write_pkg_init Sample.pkg_name Sample.pkg_version Sample.init_file.
Proof.
  split; [| split; [| split]].
  - vm_compute. reflexivity.
  - vm_compute. reflexivity.
  - vm_compute. reflexivity.
  - intros H. apply (f_equal (@length N)) in H. vm_compute in H. discriminate.
Qed.

(** [split] of a text with a separator in it. *)
Lemma split_app (sep : char) (s1 s2 : str) :
  Str.split sep (s1 ++ sep :: s2) = Str.split sep s1 ++ Str.split sep s2.
Proof.
  induction s1 as [| c s1 IH]; simpl.
  - now rewrite N.eqb_refl.
  - destruct (c =? sep); [now rewrite IH |].
    rewrite IH. pose proof (split_not_nil sep s1) as Hne.
    destruct (Str.split sep s1) as [| l ls]; [contradiction | reflexivity].
Qed.

(** The last line of a text that ends in another character than the
    separator ends in that character. *)
Lemma split_snoc (sep : char) (b : str) (c : char) :
  c <> sep -> exists ls l, Str.split sep (b ++ [c]) = ls ++ [l ++ [c]].
Proof.
  intros Hc. induction b as [| a b (ls & l & IH)]; simpl.
  - apply N.eqb_neq in Hc. rewrite Hc. now exists [], [].
  - rewrite IH. destruct (a =? sep).
    + now exists ([] :: ls), l.
    + destruct ls as [| x ls]; simpl.
      * now exists [], (a :: l).
      * now exists ((a :: x) :: ls), l.
Qed.

Lemma join_snoc (sep : str) (ls : list str) (x : str) :
  ls <> [] -> Str.join sep (ls ++ [x]) = Str.join sep ls ++ sep ++ x.
Proof.
  induction ls as [| l ls IH]; intros Hne; [contradiction |].
  destruct ls as [| l' ls]; [reflexivity |].
  change (Str.join sep ((l :: l' :: ls) ++ [x]))
    with (l ++ sep ++ Str.join sep ((l' :: ls) ++ [x])).
  rewrite IH by discriminate.
  change (Str.join sep (l :: l' :: ls)) with (l ++ sep ++ Str.join sep (l' :: ls)).
  now rewrite <- !app_assoc.
Qed.

Lemma single_trailing_newline_inv (s : str) :
  single_trailing_newline s = true ->
  s = [Str.nl] \/ exists b c, s = b ++ [c; Str.nl] /\ c <> Str.nl.
Proof.
  unfold single_trailing_newline. intros H.
  destruct (rev s) as [| x r] eqn:Hr; [discriminate |].
  apply andb_true_iff in H as [Hx Hrest]. apply N.eqb_eq in Hx as ->.
  apply (f_equal (@rev N)) in Hr. rewrite rev_involutive in Hr. simpl in Hr.
  destruct r as [| c r].
  - left. assumption.
  - right. exists (rev r), c. split.
    + rewrite Hr. simpl. now rewrite <- app_assoc.
    + apply negb_true_iff in Hrest. now apply N.eqb_neq.
Qed.

Lemma single_trailing_newline_snoc (x : str) (c : char) :
  c <> Str.nl -> single_trailing_newline (x ++ [c] ++ [Str.nl]) = true.
Proof.
  intros Hc. unfold single_trailing_newline.
  rewrite app_assoc, rev_app_distr. simpl. rewrite rev_app_distr. simpl.
  apply N.eqb_neq in Hc. now rewrite Hc.
Qed.

(** A line after which the machine is in state ['readme'] is in the
    output. *)
Lemma emit_to_readme (comment_pattern : Pattern) (new_text : gmap str (list str))
    (st : State) (line : str) (d : list str) :
  emit comment_pattern new_text st line = inr (readme, d) -> d = [line].
Proof.
  unfold emit. destruct (comment_pattern line) as [g |]; [destruct (is_closer line) |].
  - destruct st; simpl; [discriminate |]. now intros [= <-].
  - destruct (getitem new_text g); simpl; [discriminate |].
    destruct st; simpl; discriminate.
  - destruct st; simpl; [now intros [= <-] | discriminate].
Qed.

(** The output of lines that end with a blank line, when no region is left
    open: the last line before the blank one and the blank line end it. *)
Lemma emits_blank_end (comment_pattern : Pattern) (new_text : gmap str (list str))
    (ls : list str) (lb : str) (d : list str) :
  comment_pattern [] = None ->
  emits comment_pattern new_text readme ((ls ++ [lb]) ++ [[]]) = inr (readme, d) ->
  exists d0, d = (d0 ++ [lb]) ++ [[]].
Proof.
  intros Hblank H. rewrite emits_app in H.
  apply bind_inr in H as ([st1 d1] & H1 & H).
  apply bind_inr in H as ([st2 d2] & H2 & H).
  cbn [fst snd ret] in H1, H2, H. injection H as Hst Hd. subst st2 d.
  rewrite emits_cons in H2.
  apply bind_inr in H2 as ([st3 d3] & He & H2).
  cbn [emits bind fst snd ret] in H2. injection H2 as Hst Hd. subst st3 d2.
  rewrite app_nil_r.
  assert (st1 = readme /\ d3 = [[]]) as [-> ->].
  { unfold emit in He. rewrite Hblank in He.
    destruct st1; simpl in He; [injection He as <-; now split | discriminate]. }
  rewrite emits_app in H1.
  apply bind_inr in H1 as ([st0 d0] & H0 & H1).
  apply bind_inr in H1 as ([st4 d4] & H4 & H1).
  cbn [fst snd ret] in H0, H4, H1. injection H1 as Hst Hd. subst st4 d1.
  rewrite emits_cons in H4.
  apply bind_inr in H4 as ([st5 d5] & He5 & H4).
  cbn [emits bind fst snd ret] in H4. injection H4 as Hst Hd. subst st5 d4.
  rewrite app_nil_r.
  apply emit_to_readme in He5 as ->. now exists d0.
Qed.

(** C7 (as amended): the merged [__init__.py] ends in one newline and not
    in two, whatever the package and the old file; the README is written as
    the output lines joined by newlines with nothing added, and it ends in
    one newline and not in two when the README that was read does, the
    blank line is no marker and the splice leaves no region open. *)
Theorem written_files_ending :
  (forall pkg_name pkg_version init_file,
     single_trailing_newline (_write_pkg_init pkg_name pkg_version init_file) = true) /\
  (forall comment_pattern new_text content out_lines,
     comment_pattern [] = None ->
     single_trailing_newline content = true ->
     parse init (read_lines (Some content)) comment_pattern new_text
       = inr (Machine readme out_lines) ->
     _write_to_readme comment_pattern new_text (Some content)
       = inr (Str.join [Str.nl] out_lines) /\
     single_trailing_newline (Str.join [Str.nl] out_lines) = true).
Proof.
  split.
  - intros. unfold _write_pkg_init, merge. apply single_trailing_newline_strip.
  - intros comment_pattern new_text content out_lines Hblank Hend Hparse.
    rewrite parse_init_emits in Hparse.
    destruct (emits comment_pattern new_text readme (read_lines (Some content)))
      as [e | [st d]] eqn:Hes; [discriminate |].
    simpl in Hparse. injection Hparse as -> ->. split.
    + unfold _write_to_readme. rewrite splice_emits, Hes. reflexivity.
    + simpl in Hes.
      apply single_trailing_newline_inv in Hend as [-> | (b & c & -> & Hc)].
      * simpl in Hes. unfold emit in Hes. rewrite Hblank in Hes. simpl in Hes.
        now injection Hes as <-.
      * change [c; Str.nl] with ([c] ++ Str.nl :: []) in Hes.
        rewrite app_assoc, split_app in Hes.
        destruct (split_snoc Str.nl b c Hc) as (ls & l & Hsplit).
        rewrite Hsplit in Hes. simpl (Str.split Str.nl []) in Hes.
        apply emits_blank_end in Hes as [d0 ->]; [| assumption].
        rewrite join_snoc by (intros H; apply app_eq_nil in H as [_ H]; discriminate).
        rewrite app_nil_r. destruct d0 as [| x d0].
        -- simpl. rewrite <- app_assoc. now apply single_trailing_newline_snoc.
        -- rewrite join_snoc by discriminate.
           replace ((Str.join [Str.nl] (x :: d0) ++ [Str.nl] ++ l ++ [c]) ++ [Str.nl])
             with ((Str.join [Str.nl] (x :: d0) ++ [Str.nl] ++ l) ++ [c] ++ [Str.nl])
             by (now rewrite <- !app_assoc).
           now apply single_trailing_newline_snoc.
Qed.

Lemma written_files_ending_witness :
  single_trailing_newline
    (_write_pkg_init Sample.pkg_name Sample.pkg_version Sample.init_file) = true /\
  _write_to_readme coverage_pattern Sample.coverage_text
    (Some (Sample.readme_file ++ [Str.nl]))
    = inr (Str.join [Str.nl] (Sample.readme_spliced ++ [[]])) /\
  single_trailing_newline (Str.join [Str.nl] (Sample.readme_spliced ++ [[]])) = true.
Proof.
  split.
  - apply (proj1 written_files_ending).
  - apply (proj2 written_files_ending).
    + vm_compute. reflexivity.
    + vm_compute. reflexivity.
    + vm_compute. reflexivity.
Defined.

(** C7 (counterexample): a README that does not end in a newline is
    written without one. *)
Lemma readme_written_without_newline :
  _write_to_readme coverage_pattern Sample.coverage_text (Some Sample.readme_file)
    = inr (Str.join [Str.nl]
             [Sample.title; Sample.opener; []; lit "| File | Coverage |";
              lit "| `calcipy/doc.py` | 91.2% |"; []; Sample.closer; Sample.footer]) /\
  single_trailing_newline
    (Str.join [Str.nl]
       [Sample.title; Sample.opener; []; lit "| File | Coverage |";
        lit "| `calcipy/doc.py` | 91.2% |"; []; Sample.closer; Sample.footer]) = false.
Proof. split; vm_compute; reflexivity. Qed.

(** ** The tag scan *)

Section SearchLines.

Variable regex_compiled : Regex.

Local Abbreviation search_loop := (search_loop regex_compiled).
Local Abbreviation all_comments := (all_comments regex_compiled).

(** The comments found so far stay in front of the later ones. *)
Lemma search_loop_acc lines : forall comments lineno,
  search_loop comments lineno lines = comments ++ search_loop [] lineno lines.
Proof.
  induction lines as [| line lines IH]; intros comments lineno; simpl.
  - now rewrite app_nil_r.
  - destruct ((lineno <=? 3)%nat && Str.contains skip_tags line).
    + now rewrite app_nil_r.
    + destruct (regex_compiled line) as [mg |]; [| apply IH].
      rewrite IH, (IH [_]). now rewrite app_assoc.
Qed.

(** Without a directive in the lines that are among the first four of the
    file, every line is searched. *)
Lemma search_loop_no_directive lines : forall lineno,
  (forall l, In l (firstn (4 - lineno) lines) -> Str.contains skip_tags l = false) ->
  search_loop [] lineno lines = all_comments lineno lines.
Proof.
  induction lines as [| line lines IH]; intros lineno H; simpl; [reflexivity |].
  assert (Hskip : (lineno <=? 3)%nat && Str.contains skip_tags line = false).
  { destruct (lineno <=? 3)%nat eqn:Hle; [| reflexivity]. simpl.
    apply Nat.leb_le in Hle. apply H.
    destruct (4 - lineno)%nat as [| k] eqn:Hk; [lia |]. now left. }
  rewrite Hskip.
  assert (Hrest : forall l, In l (firstn (4 - S lineno) lines) ->
                            Str.contains skip_tags l = false).
  { intros l Hl. apply H.
    destruct (4 - lineno)%nat as [| k] eqn:Hk.
    - replace (4 - S lineno)%nat with 0%nat in Hl by lia. destruct Hl.
    - replace (4 - S lineno)%nat with k in Hl by lia. now right. }
  destruct (regex_compiled line) as [mg |].
  - rewrite search_loop_acc, IH by assumption. reflexivity.
  - now apply IH.
Qed.

(** A directive in one of the first four lines ends the search with the
    comments of the lines before it. *)
Lemma search_loop_directive pre : forall lineno line post,
  (lineno + length pre <= 3)%nat ->
  (forall l, In l pre -> Str.contains skip_tags l = false) ->
  Str.contains skip_tags line = true ->
  search_loop [] lineno (pre ++ line :: post) = all_comments lineno pre.
Proof.
  induction pre as [| p pre IH]; intros lineno line post Hlen Hpre Hline; simpl in *.
  - rewrite Hline. replace (lineno <=? 3)%nat with true; [reflexivity |].
    symmetry. apply Nat.leb_le. lia.
  - rewrite (Hpre p) by now left. rewrite andb_false_r.
    assert (Hrest : search_loop [] (S lineno) (pre ++ line :: post)
                    = all_comments (S lineno) pre).
    { apply IH; [lia | | assumption]. intros l Hl. apply Hpre. now right. }
    destruct (regex_compiled p) as [mg |].
    + rewrite search_loop_acc, Hrest. reflexivity.
    + exact Hrest.
Qed.

(** C8: a file whose first line has the directive gives no tagged
    comment, whatever follows; a file without the directive in its first
    four lines is searched to its end, also when a later line has the
    directive. *)
Theorem skip_directive_first_four_lines :
  (forall first rest,
     Str.contains skip_tags first = true ->
     _search_lines (first :: rest) regex_compiled = []) /\
  (forall lines,
     (forall l, In l (firstn 4 lines) -> Str.contains skip_tags l = false) ->
     _search_lines lines regex_compiled = all_comments 0 lines).
Proof.
  split.
  - intros first rest H. unfold _search_lines. simpl. now rewrite H.
  - intros lines H. unfold _search_lines. now apply search_loop_no_directive.
Qed.

(** C10: a line among the first four that has the directive ends the
    search before its own match is recorded: the result is the tagged
    comments of the lines before it, whether the line has a tag or not. *)
Theorem directive_line_not_recorded (pre : list str) (line : str) (post : list str) :
  (length pre <= 3)%nat ->
  (forall l, In l pre -> Str.contains skip_tags l = false) ->
  Str.contains skip_tags line = true ->
  _search_lines (pre ++ line :: post) regex_compiled = all_comments 0 pre.
Proof.
  intros Hlen Hpre Hline. unfold _search_lines.
  now apply search_loop_directive.
Qed.

End SearchLines.

Lemma skip_directive_first_four_lines_witness :
  _search_lines Sample.skipped_file _COMPILED_RE = [] /\
  _search_lines Sample.late_directive_file _COMPILED_RE
    = [TaggedComment 3 (lit "NOTE") (lit "keep");
       TaggedComment 6 (lit "TODO") (lit "fix this")].
Proof.
  split.
  - apply (proj1 (skip_directive_first_four_lines _COMPILED_RE)).
    vm_compute. reflexivity.
  - etransitivity.
    + apply (proj2 (skip_directive_first_four_lines _COMPILED_RE)).
      intros l [<- | [<- | [<- | [<- | []]]]]; vm_compute; reflexivity.
    + vm_compute. reflexivity.
Defined.

Lemma directive_line_not_recorded_witness :
  _COMPILED_RE (lit "# TODO: second :skip_tags:")
    = Some (lit "TODO", lit "second :skip_tags:") /\
  _search_lines Sample.tagged_directive_file _COMPILED_RE
    = [TaggedComment 1 (lit "FIXME") (lit "first")].
Proof.
  split; [vm_compute; reflexivity |].
  etransitivity.
  - apply (directive_line_not_recorded _COMPILED_RE [lit "# FIXME: first"]
             (lit "# TODO: second :skip_tags:") [lit "# HACK: third"]).
    + simpl. lia.
    + intros l [<- | []]. vm_compute. reflexivity.
    + vm_compute. reflexivity.
  - vm_compute. reflexivity.
Defined.

(** The default expression on the line of the tag scan's basic case. *)
Example search_todo_line :
  _search_lines [[]; []; []; []; lit "# TODO: fix this"] _COMPILED_RE
  = [TaggedComment 5 (lit "TODO") (lit "fix this")].
Proof. vm_compute. reflexivity. Qed.

(** ** More on the state machine: unbalanced markers, composition *)

Section Markers.

Variable comment_pattern : Pattern.
Variable new_text : gmap str (list str).

Local Abbreviation emit := (emit comment_pattern new_text).
Local Abbreviation emits := (emits comment_pattern new_text).

Lemma parse_init_inr (pre : list str) (st : State) (out_pre : list str) :
  parse init pre comment_pattern new_text = inr (Machine st out_pre) ->
  emits readme pre = inr (st, out_pre).
Proof.
  rewrite parse_init_emits.
  destruct (emits readme pre) as [e | [st0 d0]]; [discriminate |].
  simpl. now intros [= -> ->].
Qed.

(** The splice of [pre ++ rest], once [pre] has been read. *)
Lemma splice_after (pre rest : list str) (st : State) (out_pre : list str) :
  parse init pre comment_pattern new_text = inr (Machine st out_pre) ->
  splice (pre ++ rest) comment_pattern new_text =
    let* r := emits st rest in ret (out_pre ++ snd r).
Proof.
  intros Hpre. apply parse_init_inr in Hpre.
  rewrite splice_emits, emits_app, Hpre. simpl.
  now destruct (emits st rest) as [e | [st2 d2]].
Qed.

Lemma emits_no_IndexError (ls : list str) : forall st, emits st ls <> inl IndexError.
Proof.
  induction ls as [| l ls IH]; intros st; simpl; [discriminate |].
  destruct (emit st l) as [e | [st1 d1]] eqn:He; simpl.
  - unfold Doc.emit in He.
    destruct (comment_pattern l) as [g |]; [destruct (is_closer l) |].
    + destruct st; simpl in He; [| discriminate]. now injection He as <-.
    + destruct g as [k |]; simpl in He.
      * destruct (new_text !! k); simpl in He.
        -- destruct st; simpl in He; [discriminate |]. now injection He as <-.
        -- now injection He as <-.
      * now injection He as <-.
    + destruct st; discriminate.
  - specialize (IH st1). destruct (emits st1 ls) as [e | r]; simpl; [| discriminate].
    intros [= ->]. now apply IH.
Qed.

(** X1: markers have to alternate.  A closer read outside a region makes
    the splice raise the [MachineError] of [end]; an opener read inside a
    region, with its key in the map, that of [start_new]. *)
Theorem unbalanced_marker_raises (pre : list str) (line : str) (post out_pre : list str)
    (group1 : option str) :
  comment_pattern line = Some group1 ->
  (parse init pre comment_pattern new_text = inr (Machine readme out_pre) ->
   is_closer line = true ->
   splice (pre ++ line :: post) comment_pattern new_text
     = inl (MachineError "end" readme)) /\
  (parse init pre comment_pattern new_text = inr (Machine new out_pre) ->
   is_closer line = false ->
   forall K v, group1 = Some K -> new_text !! K = Some v ->
   splice (pre ++ line :: post) comment_pattern new_text
     = inl (MachineError "start_new" new)).
Proof.
  intros Hm. split.
  - intros Hpre Hc. rewrite (splice_after _ _ _ _ Hpre). simpl.
    unfold Doc.emit. now rewrite Hm, Hc.
  - intros Hpre Hc K v -> HK. rewrite (splice_after _ _ _ _ Hpre). simpl.
    unfold Doc.emit. rewrite Hm, Hc. simpl. now rewrite HK.
Qed.

(** X2: the key of a closer is not looked at.  Inside a region every
    matched closer ends it, whatever its group 1 is and whether the map has
    it or not: the closer is appended and the rest is spliced as from the
    start. *)
Theorem closer_key_not_checked (pre : list str) (c : str) (post out_pre : list str)
    (group1 : option str) :
  parse init pre comment_pattern new_text = inr (Machine new out_pre) ->
  comment_pattern c = Some group1 ->
  is_closer c = true ->
  splice (pre ++ c :: post) comment_pattern new_text =
    let* out_post := splice post comment_pattern new_text in
    ret (out_pre ++ c :: out_post).
Proof.
  intros Hpre Hm Hc. rewrite (splice_after _ _ _ _ Hpre). simpl.
  unfold Doc.emit. rewrite Hm, Hc. simpl. rewrite splice_emits.
  now destruct (emits readme post) as [e | [st2 d2]].
Qed.

(** X3: what stands between an opener and the next matched line has no
    effect: with other unmatched lines there, the splice gives the same
    result, lines or exception. *)
Theorem region_content_irrelevant (pre : list str) (o : str) (mid mid' rest : list str)
    (group1 : option str) :
  comment_pattern o = Some group1 ->
  is_closer o = false ->
  (forall l, In l mid -> comment_pattern l = None) ->
  (forall l, In l mid' -> comment_pattern l = None) ->
  splice (pre ++ o :: mid ++ rest) comment_pattern new_text
  = splice (pre ++ o :: mid' ++ rest) comment_pattern new_text.
Proof.
  intros Hm Hc Hmid Hmid'. rewrite !splice_emits, !emits_app.
  destruct (emits readme pre) as [e | [st0 d0]]; [reflexivity |].
  cbn [bind fst snd]. rewrite !emits_cons.
  destruct (emit st0 o) as [e | [st1 d1]] eqn:He; [reflexivity |].
  assert (st1 = new) as ->.
  { unfold Doc.emit in He. rewrite Hm, Hc in He.
    destruct (getitem new_text group1); simpl in He; [discriminate |].
    destruct st0; simpl in He; [| discriminate]. now injection He as <- _. }
  cbn [bind fst snd]. rewrite !emits_app.
  now rewrite (emits_new_unmatched _ _ mid Hmid), (emits_new_unmatched _ _ mid' Hmid').
Qed.

(** X4: after lines that leave no region open, the splice goes on as from
    the start: the output of [l1 ++ l2] is the output of [l1] followed by
    that of [l2], and it raises what the splice of [l2] raises. *)
Theorem splice_app_balanced (l1 l2 out1 : list str) :
  parse init l1 comment_pattern new_text = inr (Machine readme out1) ->
  splice (l1 ++ l2) comment_pattern new_text =
    let* out2 := splice l2 comment_pattern new_text in ret (out1 ++ out2).
Proof.
  intros H1. rewrite (splice_after _ _ _ _ H1), splice_emits.
  now destruct (emits readme l2) as [e | [st2 d2]].
Qed.

(** X5: a machine that a parse left inside a region is not reset by the
    next [parse]: the list is emptied and the state kept, and the look at
    [readme_lines[-1]] raises [IndexError] exactly when the first line is
    not matched. *)
Theorem parse_reused_IndexError (acc : list str) (line : str) (rest : list str) :
  parse (Machine new acc) (line :: rest) comment_pattern new_text = inl IndexError
  <-> comment_pattern line = None.
Proof.
  unfold parse. simpl. split.
  - intros H. destruct (comment_pattern line) as [g |] eqn:Hm; [exfalso | reflexivity].
    unfold parse_line in H. rewrite Hm in H.
    destruct (Str.startswith (Str.strip line) (lit "<!-- /")).
    + simpl in H. rewrite parse_loop_emits in H by discriminate.
      pose proof (emits_no_IndexError rest readme) as Hno.
      destruct (emits readme rest) as [e | r]; simpl in H; [| discriminate].
      injection H as ->. now apply Hno.
    + destruct g as [k |]; simpl in H; [| discriminate].
      destruct (new_text !! k); simpl in H; discriminate.
  - intros Hm. unfold parse_line. now rewrite Hm.
Qed.

Lemma emits_lines_origin (lines : list str) (l : str) : forall st0 st d,
  emits st0 lines = inr (st, d) ->
  In l d ->
  In l lines \/ l = [] \/ exists K v, new_text !! K = Some v /\ In l v.
Proof.
  induction lines as [| x lines IH]; intros st0 st d; simpl.
  - intros [= <- <-] [].
  - intros H. apply bind_inr in H as ([st1 d1] & He & H).
    apply bind_inr in H as ([st2 d2] & Hes & H). simpl in *.
    injection H as <- <-. intros Hin. apply in_app_or in Hin as [Hin | Hin].
    + unfold Doc.emit in He.
      destruct (comment_pattern x) as [g |]; [destruct (is_closer x) |].
      * destruct st0; simpl in He; [discriminate |]. injection He as <- <-.
        destruct Hin as [<- | []]. left. now left.
      * destruct (getitem new_text g) as [e | v] eqn:Hg; simpl in He; [discriminate |].
        destruct st0; simpl in He; [| discriminate]. injection He as <- <-.
        apply getitem_inr in Hg as (K & -> & HK).
        destruct Hin as [<- | [<- | Hin]]; [left; now left | right; now left |].
        apply in_app_or in Hin as [Hin | [<- | []]]; right; [right; eauto | now left].
      * destruct st0; simpl in He; injection He as <- <-; [| destruct Hin].
        destruct Hin as [<- | []]. left. now left.
    + destruct (IH _ _ _ Hes Hin) as [H | H]; [left; now right | now right].
Qed.

(** X6: the splice makes up no line: every line of its output is a line
    of the input, a blank line or a line of the replacement map. *)
Theorem splice_lines_origin (lines out : list str) (l : str) :
  splice lines comment_pattern new_text = inr out ->
  In l out ->
  In l lines \/ l = [] \/ exists K v, new_text !! K = Some v /\ In l v.
Proof.
  rewrite splice_emits.
  destruct (emits readme lines) as [e | [st d]] eqn:Hes; [discriminate |].
  simpl. intros [= <-]. now apply (emits_lines_origin lines l readme st).
Qed.

(** From state ['readme'] the first line always adds to the output. *)
Lemma emits_readme_not_nil (x : str) (lines : list str) (st : State) (d : list str) :
  emits readme (x :: lines) = inr (st, d) -> d <> [].
Proof.
  simpl. intros H. apply bind_inr in H as ([st1 d1] & He & H).
  apply bind_inr in H as ([st2 d2] & Hes & H). simpl in *.
  injection H as <- <-. unfold Doc.emit in He.
  destruct (comment_pattern x) as [g |]; [destruct (is_closer x) |];
    simpl in He; [discriminate | | injection He as <- <-; discriminate].
  destruct (getitem new_text g); simpl in He; [discriminate |].
  injection He as <- <-. discriminate.
Qed.

End Markers.

(** ** Writing the README twice *)

Lemma split_no_nl (sep : char) (l : str) : ~ In sep l -> Str.split sep l = [l].
Proof.
  induction l as [| c l IH]; intros H; simpl; [reflexivity |].
  destruct (c =? sep) eqn:Hc.
  - apply N.eqb_eq in Hc as ->. exfalso. apply H. now left.
  - rewrite IH; [reflexivity |]. intros Hin. apply H. now right.
Qed.

Lemma split_app_sep (sep : char) (l s : str) :
  ~ In sep l -> Str.split sep (l ++ sep :: s) = l :: Str.split sep s.
Proof.
  induction l as [| c l IH]; intros H; simpl.
  - now rewrite N.eqb_refl.
  - destruct (c =? sep) eqn:Hc.
    + apply N.eqb_eq in Hc as ->. exfalso. apply H. now left.
    + rewrite IH; [reflexivity |]. intros Hin. apply H. now right.
Qed.

(** Lines without the separator, joined and split again, are the same
    lines; there has to be one line at least. *)
Lemma split_join (sep : char) (ls : list str) :
  ls <> [] -> (forall l, In l ls -> ~ In sep l) ->
  Str.split sep (Str.join [sep] ls) = ls.
Proof.
  induction ls as [| l ls IH]; intros Hne H; [contradiction |].
  destruct ls as [| l' ls].
  - simpl. apply split_no_nl. apply H. now left.
  - change (Str.join [sep] (l :: l' :: ls)) with (l ++ sep :: Str.join [sep] (l' :: ls)).
    rewrite split_app_sep by (apply H; now left).
    rewrite IH; [reflexivity | discriminate |]. intros x Hx. apply H. now right.
Qed.

Lemma split_lines_no_sep (sep : char) (s : str) (l : str) :
  In l (Str.split sep s) -> ~ In sep l.
Proof.
  revert l. induction s as [| c s IH]; intros l; simpl.
  - intros [<- | []] [].
  - destruct (c =? sep) eqn:Hc.
    + intros [<- | Hl]; [intros [] | now apply IH].
    + pose proof (split_not_nil sep s) as Hne.
      destruct (Str.split sep s) as [| x xs]; [contradiction |].
      intros [<- | Hl].
      * intros [-> | Hin]; [now rewrite N.eqb_refl in Hc |].
        revert Hin. apply IH. now left.
      * apply IH. now right.
Qed.

Lemma read_lines_no_nl (file : option str) (l : str) :
  In l (read_lines file) -> ~ In Str.nl l.
Proof.
  destruct file as [content |]; simpl; [apply split_lines_no_sep | intros []].
Qed.

(** The output lines of a README, joined and split again, are the same
    lines, when no line of the replacement map holds a newline. *)
Lemma emits_split_join (comment_pattern : Pattern) (new_text : gmap str (list str))
    (readme_file : option str) (st : State) (x : str) (d : list str) :
  (forall K v l, new_text !! K = Some v -> In l v -> ~ In Str.nl l) ->
  emits comment_pattern new_text readme (read_lines readme_file) = inr (st, x :: d) ->
  Str.split Str.nl (Str.join [Str.nl] (x :: d)) = x :: d.
Proof.
  intros Hrepl Hes. apply split_join; [discriminate |]. intros l Hl.
  destruct (emits_lines_origin _ _ _ _ _ _ _ Hes Hl) as [Hin | [-> | (K & v & HK & Hv)]].
  - now apply (read_lines_no_nl readme_file).
  - intros [].
  - now apply (Hrepl K v l).
Qed.

(** Given again the text it wrote, [_write_to_readme] writes it again. *)
Lemma write_to_readme_stable (comment_pattern : Pattern)
    (new_text : gmap str (list str)) (readme_file : option str) (out : str) :
  comment_pattern [] = None ->
  (forall K v l, new_text !! K = Some v -> In l v ->
                 comment_pattern l = None /\ ~ In Str.nl l) ->
  _write_to_readme comment_pattern new_text readme_file = inr out ->
  _write_to_readme comment_pattern new_text (Some out) = inr out.
Proof.
  intros Hblank Hrepl. unfold _write_to_readme. rewrite splice_emits.
  destruct (emits comment_pattern new_text readme (read_lines readme_file))
    as [e | [st d]] eqn:Hes; [discriminate |].
  simpl. intros [= <-].
  assert (Hm : forall K v l, new_text !! K = Some v -> In l v -> comment_pattern l = None)
    by (intros K v l HK Hl; now apply (Hrepl K v l)).
  destruct d as [| x d].
  - simpl. rewrite splice_emits. simpl. unfold emit. rewrite Hblank. reflexivity.
  - rewrite (emits_split_join _ _ _ _ _ _ (fun K v l HK Hl => proj2 (Hrepl K v l HK Hl)) Hes).
    rewrite splice_emits.
    now rewrite (emits_stable _ _ _ _ _ _ Hblank Hm Hes).
Qed.

Lemma join_no_sep (c : char) (sep : str) (ls : list str) :
  ~ In c sep -> (forall l, In l ls -> ~ In c l) -> ~ In c (Str.join sep ls).
Proof.
  intros Hsep. induction ls as [| l ls IH]; intros H; [intros [] |].
  destruct ls as [| l' ls]; [apply H; now left |].
  change (Str.join sep (l :: l' :: ls)) with (l ++ sep ++ Str.join sep (l' :: ls)).
  intros Hin. apply in_app_or in Hin as [Hin | Hin]; [revert Hin; apply H; now left |].
  apply in_app_or in Hin as [Hin | Hin]; [contradiction |].
  revert Hin. apply IH. intros x Hx. apply H. now right.
Qed.

(** *** Reading back what was written *)

Lemma read_text_no_cr (file : str) :
  ~ In cr (read_text file) /\ forall a, ~ In cr (read_text (a :: file)).
Proof.
  induction file as [| c file [IH1 IH2]].
  - split; [intros [] |]. intros a. simpl. destruct (a =? cr) eqn:Ha.
    + intros [H | []]. discriminate.
    + intros [H | []]. apply N.eqb_neq in Ha. now apply Ha.
  - split; [apply IH2 |]. intros a.
    change (read_text (a :: c :: file))
      with (if a =? cr
            then Str.nl :: (if c =? Str.nl then read_text file else read_text (c :: file))
            else a :: read_text (c :: file)).
    destruct (a =? cr) eqn:Ha.
    + intros [H | H]; [discriminate |].
      destruct (c =? Str.nl); [now apply IH1 | now apply (IH2 c)].
    + intros [H | H]; [apply N.eqb_neq in Ha; now apply Ha | now apply (IH2 c)].
Qed.

Lemma read_text_id (s : str) : ~ In cr s -> read_text s = s.
Proof.
  induction s as [| c s IH]; intros H; simpl; [reflexivity |].
  destruct (c =? cr) eqn:Hc.
  - apply N.eqb_eq in Hc as ->. exfalso. apply H. now left.
  - f_equal. apply IH. intros Hin. apply H. now right.
Qed.

(** A text without carriage return is read as it was written, with either
    line separator. *)
Lemma read_write_text (windows : bool) (s : str) :
  ~ In cr s -> read_text (write_text windows s) = s.
Proof.
  destruct windows; simpl; [| apply read_text_id].
  induction s as [| c s IH]; intros H; [reflexivity |].
  unfold Str.replace. simpl flat_map.
  assert (Hs : ~ In cr s) by (intros Hin; apply H; now right).
  destruct (c =? Str.nl) eqn:Hc.
  - apply N.eqb_eq in Hc as ->. simpl. f_equal. now apply IH.
  - simpl. destruct (c =? cr) eqn:Hcr.
    + apply N.eqb_eq in Hcr as ->. exfalso. apply H. now left.
    + f_equal. now apply IH.
Qed.

Lemma split_chars (sep : char) (s : str) (l : str) (c : char) :
  In l (Str.split sep s) -> In c l -> In c s.
Proof.
  revert l. induction s as [| a s IH]; intros l; simpl.
  - intros [<- | []] [].
  - destruct (a =? sep).
    + intros [<- | Hl] Hc; [destruct Hc |]. right. now apply (IH l).
    + pose proof (split_not_nil sep s) as Hne.
      destruct (Str.split sep s) as [| x xs]; [contradiction |].
      intros [<- | Hl] Hc.
      * destruct Hc as [-> | Hc]; [now left |]. right. apply (IH x); [now left | assumption].
      * right. apply (IH l); [now right | assumption].
Qed.

(** The text written to the README has no carriage return, when the README
    as read and the replacement lines have none. *)
Lemma write_to_readme_no_cr (comment_pattern : Pattern)
    (new_text : gmap str (list str)) (disk : option str) (out : str) :
  (forall K v l, new_text !! K = Some v -> In l v -> ~ In cr l) ->
  _write_to_readme comment_pattern new_text (option_map read_text disk) = inr out ->
  ~ In cr out.
Proof.
  intros Hrepl. unfold _write_to_readme. rewrite splice_emits.
  destruct (emits comment_pattern new_text readme (read_lines (option_map read_text disk)))
    as [e | [st d]] eqn:Hes; [discriminate |].
  simpl. intros [= <-]. apply join_no_sep; [intros [H | []]; discriminate |].
  intros l Hl.
  destruct (emits_lines_origin _ _ _ _ _ _ _ Hes Hl) as [Hin | [-> | (K & v & HK & Hv)]].
  - destruct disk as [content |]; [| destruct Hin]. simpl in Hin.
    intros Hc. apply (split_chars _ _ _ _ Hin) in Hc.
    now apply (proj1 (read_text_no_cr content)).
  - intros [].
  - now apply (Hrepl K v l).
Qed.

(** X7: writing the README a second time changes nothing, when neither
    the blank line nor a line of the replacement map matches the pattern
    and no line of the map holds a newline or a carriage return.  The
    README is read from the disk each time, with universal newlines, and
    written with the line separator of the system. *)
Theorem write_to_readme_idempotent (comment_pattern : Pattern)
    (new_text : gmap str (list str)) (disk : option str) (windows : bool) (out : str) :
  comment_pattern [] = None ->
  (forall K v l, new_text !! K = Some v -> In l v ->
                 comment_pattern l = None /\ ~ In Str.nl l /\ ~ In cr l) ->
  _write_to_readme comment_pattern new_text (option_map read_text disk) = inr out ->
  _write_to_readme comment_pattern new_text (Some (read_text (write_text windows out)))
  = inr out.
Proof.
  intros Hblank Hrepl Hout.
  assert (Hcr : ~ In cr out).
  { apply (write_to_readme_no_cr comment_pattern new_text disk); [| assumption].
    intros K v l HK Hl. now apply (Hrepl K v l). }
  rewrite read_write_text by assumption.
  apply (write_to_readme_stable comment_pattern new_text (option_map read_text disk));
    [assumption | | assumption].
  intros K v l HK Hl. destruct (Hrepl K v l HK Hl) as (H1 & H2 & _). now split.
Qed.

(** A line of the coverage table is no marker, and has no newline and no
    carriage return when the values and the time stamp have none. *)
Lemma table_lines_plain (file_rows : list (list str)) (timestamp : str) (l : str)
    (c : char) :
  c = Str.nl \/ c = cr ->
  (forall row cell, In row file_rows -> In cell row -> ~ In c cell) ->
  ~ In c timestamp ->
  In l (table_lines file_rows timestamp) ->
  coverage_pattern l = None /\ ~ In c l.
Proof.
  intros Hc Hrows Hts Hl. unfold table_lines in Hl.
  assert (Hlit : forall s,
            In s ([lit "| "; lit " |"; lit " | "; lit "Generated on: "; lit "--:"]
                  ++ legend) ->
            ~ In c s).
  { intros s Hs Hin. vm_compute in Hs.
    repeat (destruct Hs as [<- | Hs];
            [destruct Hc as [-> | ->]; vm_compute in Hin; intuition discriminate |]).
    destruct Hs. }
  apply in_app_or in Hl as [Hl | [<- | [<- | []]]].
  - apply in_map_iff in Hl as (row & <- & Hrow). split; [reflexivity |].
    unfold table_line. intros Hin.
    apply in_app_or in Hin as [Hin | Hin];
      [revert Hin; apply Hlit; now left |].
    apply in_app_or in Hin as [Hin | Hin];
      [| revert Hin; apply Hlit; right; now left].
    revert Hin. apply join_no_sep; [apply Hlit; do 2 right; now left |].
    intros cell Hcell. apply in_app_or in Hrow as [Hrow | Hrow].
    + destruct Hrow as [<- | [<- | []]].
      * apply Hlit. apply in_or_app. now right.
      * apply Hlit. simpl in Hcell.
        repeat (destruct Hcell as [<- | Hcell]; [do 4 right; now left |]).
        destruct Hcell.
    + now apply (Hrows row).
  - split; [reflexivity | intros []].
  - split; [reflexivity |]. intros Hin.
    apply in_app_or in Hin as [Hin | Hin]; [| contradiction].
    revert Hin. apply Hlit. do 3 right. now left.
Qed.

(** X8: with the same coverage report, writing the coverage table into the
    README a second time changes nothing; the values and the time stamp are
    taken to hold no newline and no carriage return.  The README is read
    from the disk each time, with universal newlines, and written with the
    line separator of the system. *)
Theorem write_coverage_to_readme_idempotent (file_rows : list (list str))
    (timestamp : str) (disk : option str) (windows : bool) (out : str) :
  (forall row cell, In row file_rows -> In cell row ->
                    ~ In Str.nl cell /\ ~ In cr cell) ->
  ~ In Str.nl timestamp -> ~ In cr timestamp ->
  _write_coverage_to_readme (Some (file_rows, timestamp)) (option_map read_text disk)
    = inr (Some out) ->
  _write_coverage_to_readme (Some (file_rows, timestamp))
    (Some (read_text (write_text windows out)))
  = inr (Some out).
Proof.
  intros Hrows Hnl Hcr. unfold _write_coverage_to_readme.
  set (new_text := ({[ lit "COVERAGE" := table_lines file_rows timestamp ]}
                      : gmap str (list str))).
  assert (Hplain : forall c, c = Str.nl \/ c = cr -> forall K v l,
            new_text !! K = Some v -> In l v -> coverage_pattern l = None /\ ~ In c l).
  { intros c Hc K v l HK Hl. apply lookup_singleton_Some in HK as [_ <-].
    apply (table_lines_plain file_rows timestamp l c Hc); [| | assumption].
    - intros row cell Hrow Hcell. destruct (Hrows row cell Hrow Hcell).
      destruct Hc as [-> | ->]; assumption.
    - destruct Hc as [-> | ->]; assumption. }
  intros H. apply bind_inr in H as (text & Hw & H).
  assert (text = out) as -> by (unfold ret in H; congruence).
  assert (Hout : ~ In cr out).
  { apply (write_to_readme_no_cr coverage_pattern new_text disk); [| assumption].
    intros K v l HK Hl. now apply (Hplain cr (or_intror eq_refl) K v l). }
  rewrite read_write_text by assumption.
  rewrite (write_to_readme_stable coverage_pattern new_text _ out eq_refl
             (Hplain Str.nl (or_introl eq_refl)) Hw).
  reflexivity.
Qed.

(** ** The default expression of the tag scan *)

Lemma startswith_app (s p : str) :
  Str.startswith s p = true -> s = p ++ drop (length p) s.
Proof.
  revert s. induction p as [| a p IH]; intros s; simpl; [reflexivity |].
  destruct s as [| b s]; [discriminate |].
  intros H. apply andb_true_iff in H as [Hab Hp].
  apply N.eqb_eq in Hab as ->. simpl. f_equal. now apply IH.
Qed.

Lemma startswith_prefix (p rest : str) : Str.startswith (p ++ rest) p = true.
Proof.
  induction p as [| a p IH]; simpl; [now destruct rest |]. now rewrite N.eqb_refl.
Qed.

Lemma take_while_split (f : char -> bool) (s : str) :
  (forall c, In c (Str.take_while f s) -> f c = true) /\
  exists rest, s = Str.take_while f s ++ rest /\
               (rest = [] \/ exists c rest', rest = c :: rest' /\ f c = false).
Proof.
  induction s as [| c s [IHin (rest & IHs & IHrest)]]; simpl.
  - split; [intros c [] |]. exists []. split; [reflexivity | now left].
  - destruct (f c) eqn:Hc.
    + split.
      * intros x [<- | Hx]; [assumption | now apply IHin].
      * exists rest. split; [simpl; now f_equal | assumption].
    + split; [intros x [] |]. exists (c :: s). split; [reflexivity |]. right. eauto.
Qed.

Lemma take_while_all (f : char -> bool) (s : str) :
  (forall c, In c s -> f c = true) -> Str.take_while f s = s.
Proof.
  induction s as [| c s IH]; intros H; simpl; [reflexivity |].
  rewrite (H c) by now left. f_equal. apply IH. intros x Hx. apply H. now right.
Qed.

Lemma COMPILED_RE_cons (a : char) (line : str) :
  _COMPILED_RE (a :: line) =
    match match_here (a :: line) with
    | Some mg => Some mg
    | None => _COMPILED_RE line
    end.
Proof. reflexivity. Qed.

Lemma match_here_sound (s tag text : str) :
  match_here s = Some (tag, text) ->
  In tag _tags /\ text <> [] /\ ~ In Str.nl text /\
  exists c x post,
    s = c :: tag ++ 58 :: x :: text ++ post /\
    (Str.isspace c = true \/ c = 40) /\ x <> 13 /\ x <> 10 /\
    (post = [] \/ exists post', post = Str.nl :: post').
Proof.
  unfold match_here. destruct s as [| c s1]; [discriminate |].
  destruct (Str.isspace c || (c =? 40)) eqn:Hc; [| discriminate].
  destruct (find (Str.startswith s1) _tags) as [t |] eqn:Hfind; [| discriminate].
  apply find_some in Hfind as [Hin Hpre]. apply startswith_app in Hpre.
  destruct (drop (length t) s1) as [| colon [| x s3]] eqn:Hdrop; try discriminate.
  destruct ((colon =? 58) && negb (x =? 13) && negb (x =? 10)) eqn:Hcx; [| discriminate].
  apply andb_true_iff in Hcx as [Hcx Hx10]. apply andb_true_iff in Hcx as [Hcolon Hx13].
  apply N.eqb_eq in Hcolon as ->.
  apply negb_true_iff, N.eqb_neq in Hx13. apply negb_true_iff, N.eqb_neq in Hx10.
  destruct (take_while_split (fun c => negb (c =? 10)) s3) as [Hall (post & Hs3 & Hpost)].
  destruct (Str.take_while (fun c => negb (c =? 10)) s3) as [| y ys] eqn:Htw; [discriminate |].
  intros [= <- <-]. split; [assumption |]. split; [discriminate |]. split.
  - intros Hnl. apply Hall in Hnl. discriminate.
  - exists c, x, post. split; [| split; [| split; [| split]]]; try assumption.
    + rewrite Hpre. do 2 f_equal. now rewrite Hs3.
    + apply orb_true_iff in Hc as [Hc | Hc]; [now left | right; now apply N.eqb_eq].
    + destruct Hpost as [-> | (c' & post' & -> & Hc')]; [now left | right].
      apply negb_false_iff, N.eqb_eq in Hc' as ->. eauto.
Qed.

(** X9: what the default expression finds is a tag of the list, after a
    white space or an opening bracket and before a colon, one more
    character that ends no line, and a text of one character at least that
    runs to the end of the line. *)
Theorem COMPILED_RE_sound (line tag text : str) :
  _COMPILED_RE line = Some (tag, text) ->
  In tag _tags /\ text <> [] /\ ~ In Str.nl text /\
  exists pre c x post,
    line = pre ++ c :: tag ++ 58 :: x :: text ++ post /\
    (Str.isspace c = true \/ c = 40) /\ x <> 13 /\ x <> 10 /\
    (post = [] \/ exists post', post = Str.nl :: post').
Proof.
  induction line as [| a line IH].
  - simpl. discriminate.
  - rewrite COMPILED_RE_cons. destruct (match_here (a :: line)) as [mg |] eqn:Hm.
    + intros [= ->]. apply match_here_sound in Hm as (Ht & Hne & Hnl & c & x & post & Hs & H).
      split; [assumption |]. split; [assumption |]. split; [assumption |].
      exists [], c, x, post. now split.
    + intros H. apply IH in H as (Ht & Hne & Hnl & pre & c & x & post & -> & H).
      split; [assumption |]. split; [assumption |]. split; [assumption |].
      exists (a :: pre), c, x, post. now split.
Qed.

Lemma match_here_not_space (c : char) (s : str) :
  Str.isspace c = false -> c <> 40 -> match_here (c :: s) = None.
Proof.
  intros Hs Hp. unfold match_here. rewrite Hs.
  apply N.eqb_neq in Hp. now rewrite Hp.
Qed.

Lemma find_tag (tag rest : str) :
  In tag _tags -> find (Str.startswith (tag ++ rest)) _tags = Some tag.
Proof.
  intros H. unfold _tags in H. simpl in H.
  repeat (destruct H as [<- | H]; [destruct rest; reflexivity |]). destruct H.
Qed.

Lemma first_occurrence (x : char) (l1 l2 r1 r2 : str) :
  ~ In x l1 -> ~ In x l2 -> l1 ++ x :: r1 = l2 ++ x :: r2 -> l1 = l2.
Proof.
  revert l2. induction l1 as [| a l1 IH]; intros [| b l2] H1 H2 H; simpl in *.
  - reflexivity.
  - injection H as -> _. exfalso. apply H2. now left.
  - injection H as -> _. exfalso. apply H1. now left.
  - injection H as -> H. f_equal. apply (IH l2); tauto.
Qed.

(** The tags are made of letters. *)
Lemma tags_letters (t : str) (a : char) :
  In t _tags -> In a t -> Str.isspace a = false /\ a <> 40 /\ a <> 58.
Proof.
  intros Ht Ha. unfold _tags in Ht. simpl in Ht.
  repeat (destruct Ht as [<- | Ht];
          [vm_compute in Ha;
           repeat (destruct Ha as [<- | Ha]; [repeat split; discriminate |]);
           destruct Ha |]).
  destruct Ht.
Qed.

(** Before the first colon of a line nothing is found. *)
Lemma match_here_no_colon (pre : str) (c : char) (tag rest : str) :
  pre <> [] ->
  ~ In 58 pre ->
  Str.isspace c = true \/ c = 40 ->
  In tag _tags ->
  match_here (pre ++ c :: tag ++ 58 :: rest) = None.
Proof.
  intros Hne Hpre Hc Htag.
  destruct (match_here (pre ++ c :: tag ++ 58 :: rest)) as [[tag' text'] |] eqn:Hm;
    [exfalso | reflexivity].
  apply match_here_sound in Hm as (Htag' & _ & _ & c' & x' & post & Hs & _).
  destruct pre as [| a pre]; [contradiction |]. simpl in Hs. injection Hs as _ Hs.
  assert (Heq : pre ++ c :: tag = tag').
  { apply (first_occurrence 58 _ _ rest (x' :: text' ++ post)).
    - intros Hin. apply in_app_or in Hin as [Hin | [Hc58 | Hin]].
      + apply Hpre. now right.
      + rewrite Hc58 in Hc. destruct Hc as [Hc | Hc]; discriminate.
      + now apply (tags_letters tag 58 Htag) in Hin.
    - intros Hin. now apply (tags_letters tag' 58 Htag') in Hin.
    - now rewrite <- app_assoc. }
  assert (Hin : In c tag') by (rewrite <- Heq; apply in_or_app; right; now left).
  apply (tags_letters _ _ Htag') in Hin as (Hs1 & Hs2 & _).
  destruct Hc as [Hc | Hc]; congruence.
Qed.

(** X10: a tag of the list before the first colon of the line, with a
    white space or an opening bracket in front of it, is found with the
    text behind the colon, when one more character stands between them:
    the text is the rest of the line, without that character. *)
Theorem COMPILED_RE_finds (pre : str) (c : char) (tag : str) (x : char) (text : str) :
  ~ In 58 pre ->
  Str.isspace c = true \/ c = 40 ->
  In tag _tags ->
  x <> 13 -> x <> 10 ->
  text <> [] -> ~ In Str.nl text ->
  _COMPILED_RE (pre ++ c :: tag ++ 58 :: x :: text) = Some (tag, text).
Proof.
  intros Hpre Hc Htag Hx13 Hx10 Hne Hnl.
  induction pre as [| a pre IH].
  - simpl app. destruct tag as [| t0 tag']; [simpl in Htag; intuition discriminate |].
    rewrite COMPILED_RE_cons.
    assert (Hm : match_here (c :: (t0 :: tag') ++ 58 :: x :: text)
                 = Some (t0 :: tag', text)); [| now rewrite Hm].
    unfold match_here.
    replace (Str.isspace c || (c =? 40)) with true
      by (symmetry; apply orb_true_iff;
          destruct Hc as [Hc | ->]; [now left | right; reflexivity]).
    rewrite find_tag by assumption.
    rewrite drop_app_length. rewrite N.eqb_refl.
    apply N.eqb_neq in Hx13, Hx10. rewrite Hx13, Hx10. simpl.
    rewrite take_while_all.
    + destruct text; [contradiction | reflexivity].
    + intros y Hy. apply negb_true_iff, N.eqb_neq. intros ->. now apply Hnl.
  - rewrite <- app_comm_cons, COMPILED_RE_cons, app_comm_cons.
    rewrite match_here_no_colon by (assumption || discriminate).
    apply IH. intros Hin. apply Hpre. now right.
Qed.

(** ** Line numbers and files of the tag scan *)

Section SearchFiles.

Variable regex_compiled : Regex.

Lemma search_loop_cons (lineno : nat) (line : str) (lines : list str) :
  search_loop regex_compiled [] lineno (line :: lines) =
    if (lineno <=? 3)%nat && Str.contains skip_tags line then []
    else match regex_compiled line with
         | Some mg =>
             TaggedComment (lineno + 1) (fst mg) (snd mg)
               :: search_loop regex_compiled [] (S lineno) lines
         | None => search_loop regex_compiled [] (S lineno) lines
         end.
Proof.
  simpl. destruct ((lineno <=? 3)%nat && Str.contains skip_tags line); [reflexivity |].
  destruct (regex_compiled line); [| reflexivity].
  now rewrite search_loop_acc.
Qed.

Lemma search_loop_lineno (lines : list str) : forall n c,
  In c (search_loop regex_compiled [] n lines) ->
  exists i line,
    lines !! i = Some line /\ lineno c = (n + i + 1)%nat /\
    regex_compiled line = Some (tag c, text c).
Proof.
  induction lines as [| line lines IH]; intros n c; [intros [] |].
  rewrite search_loop_cons.
  destruct ((n <=? 3)%nat && Str.contains skip_tags line); [intros [] |].
  assert (Hrest : In c (search_loop regex_compiled [] (S n) lines) ->
                  exists i l, (line :: lines) !! i = Some l /\
                              lineno c = (n + i + 1)%nat /\
                              regex_compiled l = Some (tag c, text c)).
  { intros Hin. apply IH in Hin as (i & l & Hl & Hno & Hre).
    exists (S i), l. split; [assumption |]. split; [lia | assumption]. }
  destruct (regex_compiled line) as [[t x] |] eqn:Hre; [| assumption].
  intros [<- | Hin]; [| now apply Hrest].
  exists 0%nat, line. simpl. split; [reflexivity |]. split; [lia | assumption].
Qed.

Lemma search_loop_sorted (lines : list str) : forall n,
  StronglySorted lt (map lineno (search_loop regex_compiled [] n lines)).
Proof.
  induction lines as [| line lines IH]; intros n; [constructor |].
  rewrite search_loop_cons.
  destruct ((n <=? 3)%nat && Str.contains skip_tags line); [constructor |].
  destruct (regex_compiled line) as [mg |]; [| apply IH].
  simpl. constructor; [apply IH |].
  apply Forall_forall. intros k Hk. apply list_elem_of_In in Hk.
  apply in_map_iff in Hk as (c & <- & Hc).
  apply search_loop_lineno in Hc as (i & l & _ & -> & _). lia.
Qed.

(** X11: the line number of a tagged comment is the place, counted from
    1, of a line that the expression matches with the tag and text of the
    comment; the comments come with increasing line numbers. *)
Theorem search_lines_linenos (lines : list str) :
  (forall c, In c (_search_lines lines regex_compiled) ->
     (1 <= lineno c)%nat /\
     exists line, lines !! (lineno c - 1)%nat = Some line /\
                  regex_compiled line = Some (tag c, text c)) /\
  StronglySorted lt (map lineno (_search_lines lines regex_compiled)).
Proof.
  split; [| apply search_loop_sorted].
  intros c Hc. apply search_loop_lineno in Hc as (i & line & Hl & Hno & Hre).
  split; [lia |]. exists line. split; [| assumption].
  replace (lineno c - 1)%nat with i by lia. assumption.
Qed.

Context {Path : Type}.
Variable fs : Path -> file_read.

Local Abbreviation search_files_loop := (search_files_loop fs regex_compiled).

Lemma search_files_loop_acc (paths : list Path) : forall matches,
  search_files_loop matches paths = matches ++ search_files_loop [] paths.
Proof.
  induction paths as [| p paths IH]; intros matches; simpl.
  - now rewrite app_nil_r.
  - destruct (_search_lines _ regex_compiled); [apply IH |].
    rewrite IH, (IH [_]). now rewrite app_assoc.
Qed.

Lemma search_files_cons (p : Path) (paths : list Path) :
  _search_files fs (p :: paths) regex_compiled =
    match fs p with
    | Text content =>
        match _search_lines (Str.split Str.nl content) regex_compiled with
        | [] => _search_files fs paths regex_compiled
        | c :: cs => Tags p (c :: cs) :: _search_files fs paths regex_compiled
        end
    | _ => _search_files fs paths regex_compiled
    end.
Proof.
  unfold _search_files. simpl.
  destruct (fs p) as [| | content]; simpl; try reflexivity.
  destruct (_search_lines (Str.split Str.nl content) regex_compiled); [reflexivity |].
  now rewrite search_files_loop_acc.
Qed.

(** X12: the scan of the files.  A collection is made for the files with
    a tagged comment only, in the order of the paths, from the lines of the
    file; what is no file or no text gives none and stops nothing; and the
    scan of two lists of paths, one after the other, is the scan of the
    first followed by the scan of the second. *)
Theorem search_files_collections (paths : list Path) :
  (forall t, In t (_search_files fs paths regex_compiled) ->
     In (file_path t) paths /\ tagged_comments t <> [] /\
     exists content,
       fs (file_path t) = Text content /\
       tagged_comments t = _search_lines (Str.split Str.nl content) regex_compiled) /\
  sublist (map file_path (_search_files fs paths regex_compiled)) paths /\
  (forall paths',
     _search_files fs (paths ++ paths') regex_compiled
     = _search_files fs paths regex_compiled ++ _search_files fs paths' regex_compiled).
Proof.
  induction paths as [| p paths (IHin & IHsub & IHapp)].
  - split; [intros t [] |]. split; [constructor | reflexivity].
  - rewrite search_files_cons.
    destruct (fs p) as [| | content] eqn:Hfs.
    1, 2: split; [intros t Ht; apply IHin in Ht as (H1 & H2 & H3); split; [now right | now split]
                 | split; [now apply sublist_cons |]];
          intros paths'; rewrite <- app_comm_cons, search_files_cons, Hfs; apply IHapp.
    destruct (_search_lines (Str.split Str.nl content) regex_compiled) as [| c cs] eqn:Hs.
    + split; [intros t Ht; apply IHin in Ht as (H1 & H2 & H3); split; [now right | now split]
             | split; [now apply sublist_cons |]].
      intros paths'. rewrite <- app_comm_cons, search_files_cons, Hfs, Hs. apply IHapp.
    + split; [| split].
      * intros t [<- | Ht].
        -- simpl. split; [now left |]. split; [discriminate |]. exists content. now split.
        -- apply IHin in Ht as (H1 & H2 & H3). split; [now right | now split].
      * simpl. now apply sublist_skip.
      * intros paths'. rewrite <- app_comm_cons, search_files_cons, Hfs, Hs.
        simpl. f_equal. apply IHapp.
Qed.

End SearchFiles.

(** ** The report and the summary file *)

Lemma count_of_incr (t t' : str) (counter : list (str * nat)) :
  count_of t (incr t' counter)
  = (count_of t counter + if decide (t' = t) then 1 else 0)%nat.
Proof.
  induction counter as [| [k n] counter IH]; simpl.
  - destruct (decide (t' = t)); reflexivity.
  - destruct (decide (k = t')) as [-> | Hk]; simpl.
    + destruct (decide (t' = t)); [reflexivity | lia].
    + destruct (decide (k = t)) as [-> | Hkt]; [| apply IH].
      rewrite decide_False by congruence. lia.
Qed.

Lemma keys_incr (t' : str) (counter : list (str * nat)) (k : str) :
  In k (map fst (incr t' counter)) <-> k = t' \/ In k (map fst counter).
Proof.
  induction counter as [| [a n] counter IH]; simpl; [intuition |].
  destruct (decide (a = t')) as [-> | Ha]; simpl; [intuition |].
  rewrite IH. intuition.
Qed.

Lemma NoDup_incr (t' : str) (counter : list (str * nat)) :
  List.NoDup (map fst counter) -> List.NoDup (map fst (incr t' counter)).
Proof.
  induction counter as [| [a n] counter IH]; simpl; intros H.
  - constructor; [intros [] | constructor].
  - destruct (decide (a = t')) as [-> | Ha]; simpl; [assumption |].
    inversion H as [| x xs Hnot Hnd]; subst. constructor; [| now apply IH].
    rewrite keys_incr. intros [-> | Hin]; [now apply Ha | contradiction].
Qed.

Lemma comments_loop_counter (comments : list _TaggedComment) :
  forall output counter,
    (forall t, count_of t (snd (comments_loop output counter comments))
               = (count_of t counter + count_comments t comments)%nat) /\
    (List.NoDup (map fst counter) ->
     List.NoDup (map fst (snd (comments_loop output counter comments)))).
Proof.
  induction comments as [| c comments IH]; intros output counter; simpl.
  - split; [intros t; lia | auto].
  - destruct (IH (output ++ comment_line c) (incr (tag c) counter)) as [IHc IHnd].
    split.
    + intros t. rewrite IHc, count_of_incr. lia.
    + intros H. apply IHnd. now apply NoDup_incr.
Qed.

Lemma summary_not_nil (item : str * nat) (counter : list (str * nat)) :
  Str.join (lit ",  ") (map summary_item (item :: counter)) <> [].
Proof.
  assert (Hitem : summary_item item <> []).
  { unfold summary_item. intros H. apply app_eq_nil in H as [_ H].
    apply app_eq_nil in H as [H _]. vm_compute in H. discriminate. }
  simpl. destruct (summary_item item) as [| a r]; [contradiction |].
  destruct (map summary_item counter); discriminate.
Qed.

Section Report.

Context {Path : Type}.
Variable path_lt : Path -> Path -> bool.
Variable relative_to : Path -> Path -> option str.
Variable base_dir : Path.

Lemma report_loop_counter (collection : list (_Tags Path)) :
  forall output counter output' counter',
    report_loop relative_to base_dir output counter collection = Some (output', counter') ->
    (forall t, count_of t counter'
               = (count_of t counter + count_collection t collection)%nat) /\
    (List.NoDup (map fst counter) -> List.NoDup (map fst counter')).
Proof.
  induction collection as [| x collection IH]; intros output counter output' counter'; simpl.
  - intros [= <- <-]. split; [intros t; lia | auto].
  - destruct (relative_to (file_path x) base_dir) as [rel |]; [| discriminate].
    intros H. apply IH in H as [Hc Hnd].
    destruct (comments_loop_counter (tagged_comments x) (output ++ rel ++ [Str.nl]) counter)
      as [Hc1 Hnd1].
    split.
    + intros t. rewrite Hc, Hc1. lia.
    + intros Hn. apply Hnd. now apply Hnd1.
Qed.

Lemma count_collection_insert (t : str) (x : _Tags Path) (l : list (_Tags Path)) :
  count_collection t (insert_by path_lt x l) = count_collection t (x :: l).
Proof.
  induction l as [| y l IH]; simpl; [reflexivity |].
  destruct (path_lt (file_path y) (file_path x)); simpl; [| reflexivity].
  rewrite IH. simpl. lia.
Qed.

Lemma count_collection_sorted (t : str) (l : list (_Tags Path)) :
  count_collection t (sorted_by path_lt l) = count_collection t l.
Proof.
  induction l as [| x l IH]; simpl; [reflexivity |].
  rewrite count_collection_insert. simpl. now rewrite IH.
Qed.

(** X13: the counts of the summary.  The report ends with the summary
    made from a counter that has every tag once and, for each tag, the
    number of comments of the collection with it. *)
Theorem format_report_counts (tagged_collection : list (_Tags Path)) (report : str) :
  _format_report path_lt relative_to base_dir tagged_collection = Some report ->
  exists output counter,
    List.NoDup (map fst counter) /\
    (forall t, count_of t counter = count_collection t tagged_collection) /\
    report = output ++
      match counter with
      | [] => []
      | _ :: _ =>
          lit "Found tagged comments for "
          ++ Str.join (lit ",  ") (map summary_item counter) ++ [Str.nl]
      end.
Proof.
  unfold _format_report.
  destruct (report_loop relative_to base_dir [] [] (sorted_by path_lt tagged_collection))
    as [[output counter] |] eqn:Hloop; [| discriminate].
  apply report_loop_counter in Hloop as [Hc Hnd].
  intros H. exists output, counter. split; [apply Hnd; constructor |]. split.
  - intros t. rewrite Hc. simpl. apply count_collection_sorted.
  - destruct counter as [| [k n] counter].
    + simpl in H. injection H as <-. now rewrite app_nil_r.
    + pose proof (summary_not_nil (k, n) counter) as Hj.
      destruct (Str.join (lit ",  ") (map summary_item ((k, n) :: counter)))
        as [| a j]; [contradiction |].
      now injection H as <-.
Qed.

Lemma lstrip_keeps (c : char) (s : str) :
  In c s -> Str.isspace c = false -> In c (Str.lstrip s).
Proof.
  induction s as [| a s IH]; simpl; [intros [] |].
  intros [-> | Hin] Hc.
  - rewrite Hc. now left.
  - destruct (Str.isspace a); [now apply IH | now right].
Qed.

(** What is not white space stays in a stripped text. *)
Lemma strip_keeps (c : char) (s : str) :
  In c s -> Str.isspace c = false -> In c (Str.strip s).
Proof.
  intros Hin Hc. unfold Str.strip, Str.rstrip.
  apply in_rev. rewrite rev_involutive.
  apply lstrip_keeps; [| assumption].
  apply -> in_rev. now apply lstrip_keeps.
Qed.

(** A report of a collection with a comment is not blank. *)
Lemma format_report_not_blank (tagged_collection : list (_Tags Path)) (report : str)
    (x : _Tags Path) (c : _TaggedComment) :
  In x tagged_collection -> In c (tagged_comments x) ->
  _format_report path_lt relative_to base_dir tagged_collection = Some report ->
  Str.strip report <> [].
Proof.
  intros Hx Hc. unfold _format_report.
  destruct (report_loop relative_to base_dir [] [] (sorted_by path_lt tagged_collection))
    as [[output counter] |] eqn:Hloop; [| discriminate].
  apply report_loop_counter in Hloop as [Hcount _].
  assert (Hpos : (1 <= count_collection (tag c) tagged_collection)%nat).
  { clear Hcount. induction tagged_collection as [| y l IH]; [destruct Hx |].
    simpl. destruct Hx as [-> | Hx]; [| specialize (IH Hx); lia].
    clear IH. induction (tagged_comments x) as [| d ds IHd]; [destruct Hc |].
    simpl. destruct Hc as [-> | Hc]; [rewrite decide_True by reflexivity; lia |].
    specialize (IHd Hc). lia. }
  specialize (Hcount (tag c)). rewrite count_collection_sorted in Hcount.
  simpl in Hcount. rewrite <- Hcount in Hpos.
  destruct counter as [| item counter]; [simpl in Hpos; lia |].
  pose proof (summary_not_nil item counter) as Hj.
  destruct (Str.join (lit ",  ") (map summary_item (item :: counter)))
    as [| a j]; [contradiction |].
  intros H Hnil.
  assert (Hr : report = output ++ lit "Found tagged comments for " ++ (a :: j) ++ [Str.nl])
    by congruence.
  assert (Hin : In 70 (Str.strip report)).
  { apply strip_keeps; [| reflexivity]. rewrite Hr. apply in_or_app. right. now left. }
  rewrite Hnil in Hin. destruct Hin.
Qed.

Lemma search_files_comments (fs : Path -> file_read) (regex_compiled : Regex)
    (paths : list Path) (t : _Tags Path) :
  In t (_search_files fs paths regex_compiled) -> tagged_comments t <> [].
Proof.
  induction paths as [| p paths IH]; [intros [] |].
  rewrite search_files_cons. destruct (fs p) as [| | content]; try assumption.
  destruct (_search_lines (Str.split Str.nl content) regex_compiled); [assumption |].
  intros [<- | Ht]; [discriminate | now apply IH].
Qed.

Variable pkg_name : str.
Variable fs : Path -> file_read.

(** X14: the summary file is removed, or left missing, exactly when no
    file has a tagged comment; otherwise a call that returns has written
    it anew, with the report between the header and the footer, whatever
    was there before. *)
Theorem create_tag_file_outcome (found_files : list Path) (path_tag_summary : option str) :
  (_search_files fs found_files _COMPILED_RE = [] ->
   _create_tag_file pkg_name path_lt relative_to base_dir fs found_files path_tag_summary
     = Some None) /\
  (_search_files fs found_files _COMPILED_RE <> [] ->
   forall after,
     _create_tag_file pkg_name path_lt relative_to base_dir fs found_files path_tag_summary
       = Some after ->
     exists report,
       _format_report path_lt relative_to base_dir
         (_search_files fs found_files _COMPILED_RE) = Some report /\
       after = Some (lit "# Task Summary" ++ [Str.nl; Str.nl] ++ lit "Auto-Generated by "
                     ++ pkg_name ++ [Str.nl; Str.nl] ++ lit "```log" ++ [Str.nl]
                     ++ report ++ lit "```" ++ [Str.nl])).
Proof.
  unfold _create_tag_file. split.
  - intros ->. reflexivity.
  - intros Hne after.
    destruct (_format_report path_lt relative_to base_dir
                (_search_files fs found_files _COMPILED_RE)) as [report |] eqn:Hrep;
      [| discriminate].
    destruct (_search_files fs found_files _COMPILED_RE) as [| x l] eqn:Hs;
      [contradiction |].
    assert (Hx : In x (_search_files fs found_files _COMPILED_RE))
      by (rewrite Hs; now left).
    apply search_files_comments in Hx as Hcs.
    destruct (tagged_comments x) as [| c cs] eqn:Hc; [contradiction |].
    assert (Hnb : Str.strip report <> []).
    { apply (format_report_not_blank (x :: l) report x c); [now left | | assumption].
      rewrite Hc. now left. }
    destruct (Str.strip report); [contradiction |].
    intros [= <-]. exists report. split; [reflexivity |].
    f_equal. now rewrite <- !app_assoc.
Qed.

End Report.

(** ** The markers of embedded code *)

Lemma lstrip_indent (indent : str) (c : char) (r : str) :
  (forall a, In a indent -> Str.isspace a = true) ->
  Str.isspace c = false ->
  Str.lstrip (indent ++ c :: r) = c :: r.
Proof.
  intros Hind Hc. induction indent as [| a indent IH]; simpl.
  - now rewrite Hc.
  - rewrite (Hind a) by now left. apply IH. intros b Hb. apply Hind. now right.
Qed.

Lemma rstrip_last (r : str) (c : char) :
  Str.isspace c = false -> Str.rstrip (r ++ [c]) = r ++ [c].
Proof.
  intros Hc. unfold Str.rstrip. rewrite rev_app_distr. simpl. rewrite Hc.
  change (c :: rev r) with (rev [c] ++ rev r). rewrite <- rev_app_distr.
  apply rev_involutive.
Qed.

Lemma greedy_until_end (p : str) :
  greedy_until (lit " -->") (p ++ lit " -->") = Some p.
Proof.
  induction p as [| c p IH]; [reflexivity |].
  rewrite <- app_comm_cons. simpl greedy_until. now rewrite IH.
Qed.

Lemma code_marker_key (indent : str) (slash : bool) (name : str) :
  (forall a, In a indent -> Str.isspace a = true) ->
  ~ In Str.nl name ->
  code_pattern (code_marker indent slash name) = Some (Some (lit "CODE:" ++ name)).
Proof.
  intros Hind Hname. unfold code_pattern, code_marker.
  change (lit "<!-- ") with [60; 33; 45; 45; 32].
  rewrite <- !app_comm_cons, app_nil_l.
  rewrite lstrip_indent by (assumption || reflexivity).
  assert (Htw : Str.take_while (fun c => negb (c =? Str.nl)) (name ++ lit " -->")
                = name ++ lit " -->").
  { apply take_while_all. intros c Hc. apply negb_true_iff, N.eqb_neq. intros ->.
    apply in_app_or in Hc as [Hc | Hc]; [contradiction |].
    vm_compute in Hc. intuition discriminate. }
  pose proof (greedy_until_end name) as Hg.
  set (stop := lit " -->") in *. set (tail := name ++ stop) in *.
  clearbody tail stop.
  change (lit "/") with [47]. change (lit "CODE:") with [67; 79; 68; 69; 58].
  assert (Hnil : Str.startswith tail [] = true) by now destruct tail.
  destruct slash; cbn; rewrite Hnil, drop_0, Htw, Hg; reflexivity.
Qed.

Lemma code_marker_closer (indent : str) (slash : bool) (name : str) :
  (forall a, In a indent -> Str.isspace a = true) ->
  is_closer (code_marker indent slash name) = slash.
Proof.
  intros Hind. unfold is_closer, Str.strip, code_marker.
  change (lit "<!-- ") with [60; 33; 45; 45; 32].
  rewrite <- !app_comm_cons, app_nil_l.
  rewrite lstrip_indent by (assumption || reflexivity).
  change (lit " -->") with ([32; 45; 45] ++ [62]).
  rewrite !app_comm_cons, !app_assoc.
  rewrite rstrip_last by reflexivity.
  destruct slash; reflexivity.
Qed.

(** X15: a marker line for an embedded file, indented or not, is matched
    by the pattern of [_write_code_to_readme] with the key [CODE:] and the
    name, and it is taken for a closer exactly when it has the slash. *)
Theorem code_marker_recognised (indent : str) (slash : bool) (name : str) :
  (forall a, In a indent -> Str.isspace a = true) ->
  ~ In Str.nl name ->
  code_pattern (code_marker indent slash name) = Some (Some (lit "CODE:" ++ name)) /\
  is_closer (code_marker indent slash name) = slash.
Proof.
  intros Hind Hname. split.
  - now apply code_marker_key.
  - now apply code_marker_closer.
Qed.

(** X16: [_write_code_to_readme] has one key, that of [fn]: a README with
    an opener for another file makes it raise, and nothing is written. *)
Theorem write_code_other_file_raises (script : str) (readme_file : option str)
    (indent name : str) :
  (forall a, In a indent -> Str.isspace a = true) ->
  ~ In Str.nl name ->
  name <> fn ->
  In (code_marker indent false name) (read_lines readme_file) ->
  exists e, _write_code_to_readme (Some script) readme_file = inl e.
Proof.
  intros Hind Hname Hfn Hin. unfold _write_code_to_readme, _write_to_readme.
  pose proof (code_marker_key indent false name Hind Hname) as Hm.
  pose proof (code_marker_closer indent false name Hind) as Hc.
  rewrite splice_emits.
  set (new_text := ({[ lit "CODE:" ++ fn := _ ]} : gmap str (list str))).
  destruct (emits_missing_key code_pattern new_text
              (code_marker indent false name) (Some (lit "CODE:" ++ name))
              (read_lines readme_file) readme Hin Hm Hc) as [e He].
  - intros K HK. assert (K = lit "CODE:" ++ name) as -> by congruence.
    apply lookup_singleton_ne. intros H. apply app_inv_head in H. congruence.
  - rewrite He. simpl. eauto.
Qed.

(** ** The check of the lint log *)

Lemma join_not_nil (sep : str) (ls : list str) (l : str) :
  In l ls -> l <> [] -> Str.join sep ls <> [].
Proof.
  induction ls as [| x ls IH]; [intros [] |].
  intros Hin Hl. destruct ls as [| y ls].
  - destruct Hin as [-> | []]. assumption.
  - change (Str.join sep (x :: y :: ls)) with (x ++ sep ++ Str.join sep (y :: ls)).
    destruct Hin as [-> | Hin].
    + destruct l; [contradiction | discriminate].
    + intros H. apply app_eq_nil in H as [_ H]. apply app_eq_nil in H as [_ H].
      now apply IH.
Qed.

Lemma lstrip_nil (s : str) :
  Str.lstrip s = [] <-> forall c, In c s -> Str.isspace c = true.
Proof.
  induction s as [| a s IH]; simpl.
  - split; [intros _ c [] | reflexivity].
  - destruct (Str.isspace a) eqn:Ha.
    + rewrite IH. split.
      * intros H c [<- | Hc]; [assumption | now apply H].
      * intros H c Hc. apply H. now right.
    + split; [discriminate |]. intros H. rewrite (H a) in Ha by now left. discriminate.
Qed.

Lemma strip_nil (s : str) :
  Str.strip s = [] <-> forall c, In c s -> Str.isspace c = true.
Proof.
  split.
  - intros H c Hc. destruct (Str.isspace c) eqn:Hs; [reflexivity |].
    pose proof (strip_keeps c s Hc Hs) as Hin. rewrite H in Hin. destruct Hin.
  - intros H. unfold Str.strip, Str.rstrip.
    replace (Str.lstrip s) with (@nil N) by (symmetry; now apply lstrip_nil).
    reflexivity.
Qed.

(** X17: without a list of codes to ignore, the check returns exactly when
    the log holds white space only; then the log is removed, otherwise it
    stays as it was, and the backup is removed in both cases. *)
Theorem check_linting_plain (log_text : str) (full : option str) :
  (snd (Lint.check_linting_errors log_text full None) = Lint.Returned
   <-> forall c, In c log_text -> Str.isspace c = true) /\
  Lint.flake8_full (fst (Lint.check_linting_errors log_text full None)) = None /\
  Lint.flake8_log (fst (Lint.check_linting_errors log_text full None))
  = match snd (Lint.check_linting_errors log_text full None) with
    | Lint.Returned => None
    | Lint.RuntimeError => Some log_text
    end.
Proof.
  unfold Lint.check_linting_errors. cbn [fst snd]. rewrite <- strip_nil.
  destruct (Str.strip log_text) as [| c r]; cbn.
  - split; [split; reflexivity |]. split; [now destruct full | reflexivity].
  - split; [split; discriminate |]. split; [now destruct full | reflexivity].
Qed.

(** X18: with codes to ignore, a line of the log that is not empty and has
    none of the codes makes the check raise; the log then holds the lines
    that are not ignored, that line among them, and the backup the whole
    log. *)
Theorem check_linting_kept_line_raises (log_text : str) (full : option str)
    (codes : list str) (line : str) :
  In line (Str.split Str.nl (Str.strip log_text)) ->
  line <> [] ->
  Lint.ignored codes line = false ->
  snd (Lint.check_linting_errors log_text full (Some codes)) = Lint.RuntimeError /\
  Lint.flake8_full (fst (Lint.check_linting_errors log_text full (Some codes)))
  = Some (Str.strip log_text) /\
  exists remaining,
    Lint.flake8_log (fst (Lint.check_linting_errors log_text full (Some codes)))
    = Some remaining /\
    In line (Str.split Str.nl remaining) /\
    forall l, In l (Str.split Str.nl remaining) ->
              Lint.ignored codes l = false /\
              In l (Str.split Str.nl (Str.strip log_text)).
Proof.
  intros Hin Hne Hign. unfold Lint.check_linting_errors. cbn [fst snd].
  set (lines := List.filter (fun l => negb (Lint.ignored codes l))
                  (Str.split Str.nl (Str.strip log_text))).
  assert (Hline : In line lines)
    by (apply List.filter_In; split; [assumption | now rewrite Hign]).
  assert (Hsplit : Str.split Str.nl (Str.join [Str.nl] lines) = lines).
  { apply split_join; [intros H; rewrite H in Hline; destruct Hline |].
    intros l Hl. apply List.filter_In in Hl as [Hl _].
    now apply split_lines_no_sep in Hl. }
  pose proof (join_not_nil [Str.nl] lines line Hline Hne) as Hj.
  destruct (Str.join [Str.nl] lines) as [| c r] eqn:Hjoin; [contradiction |].
  cbn. split; [reflexivity |]. split; [reflexivity |].
  exists (c :: r). split; [reflexivity |]. rewrite Hsplit.
  split; [assumption |]. intros l Hl. apply List.filter_In in Hl as [Hl Hb].
  split; [now apply negb_true_iff in Hb | assumption].
Qed.

(** X19: with codes to ignore, a log in which every line has one of the
    codes lets the check return: the log is removed and the backup holds
    the whole log. *)
Theorem check_linting_all_ignored (log_text : str) (full : option str) (codes : list str) :
  (forall l, In l (Str.split Str.nl (Str.strip log_text)) -> Lint.ignored codes l = true) ->
  Lint.check_linting_errors log_text full (Some codes)
  = (Lint.Files None (Some (Str.strip log_text)), Lint.Returned).
Proof.
  intros H. unfold Lint.check_linting_errors. cbn [fst snd].
  replace (List.filter (fun l => negb (Lint.ignored codes l))
             (Str.split Str.nl (Str.strip log_text))) with (@nil str); [reflexivity |].
  symmetry. induction (Str.split Str.nl (Str.strip log_text)) as [| l ls IH]; [reflexivity |].
  simpl. rewrite (H l) by now left. simpl. apply IH. intros x Hx. apply H. now right.
Qed.

(** ** What the splice can raise, the lost divider, lines and text *)

Lemma emit_exceptions (comment_pattern : Pattern) (new_text : gmap str (list str))
    (st : State) (line : str) (e : exn) :
  emit comment_pattern new_text st line = inl e ->
  (exists group1, e = KeyError group1 /\ forall K, group1 = Some K -> new_text !! K = None)
  \/ e = MachineError "end" readme \/ e = MachineError "start_new" new.
Proof.
  unfold emit. destruct (comment_pattern line) as [g |]; [destruct (is_closer line) |].
  - destruct st; simpl; [| discriminate]. intros [= <-]. right. now left.
  - destruct g as [k |]; simpl.
    + destruct (new_text !! k) eqn:Hk; simpl.
      * destruct st; simpl; [discriminate |]. intros [= <-]. right. now right.
      * intros [= <-]. left. exists (Some k). split; [reflexivity |].
        now intros K [= <-].
    + intros [= <-]. left. exists None. split; [reflexivity | discriminate].
  - destruct st; discriminate.
Qed.

(** X20: the exceptions of the splice.  It raises the [KeyError] of a key
    that the map does not have or one of the two [MachineError]s of markers
    out of turn, and nothing else: the look at [readme_lines[-1]] never
    fails on a new machine. *)
Theorem splice_exceptions (comment_pattern : Pattern) (new_text : gmap str (list str))
    (lines : list str) (e : exn) :
  splice lines comment_pattern new_text = inl e ->
  (exists group1, e = KeyError group1 /\ forall K, group1 = Some K -> new_text !! K = None)
  \/ e = MachineError "end" readme \/ e = MachineError "start_new" new.
Proof.
  rewrite splice_emits.
  assert (H : forall ls st, emits comment_pattern new_text st ls = inl e ->
    (exists group1, e = KeyError group1 /\ forall K, group1 = Some K -> new_text !! K = None)
    \/ e = MachineError "end" readme \/ e = MachineError "start_new" new).
  { induction ls as [| l ls IH]; intros st; [discriminate |].
    rewrite emits_cons.
    destruct (emit comment_pattern new_text st l) as [e1 | [st1 d1]] eqn:He; simpl.
    - intros [= <-]. now apply (emit_exceptions _ _ _ _ _ He).
    - specialize (IH st1).
      destruct (emits comment_pattern new_text st1 ls) as [e2 | r]; simpl in *;
        [| discriminate].
      intros [= <-]. now apply IH. }
  destruct (emits comment_pattern new_text readme lines) as [e' | r] eqn:Hes;
    [| discriminate].
  simpl. intros [= <-]. now apply (H lines readme).
Qed.

Lemma index_missing (x : str) (ls : list str) : ~ In x ls -> Str.index x ls = None.
Proof.
  induction ls as [| l ls IH]; intros H; simpl; [reflexivity |].
  rewrite decide_False by (intros ->; apply H; now left).
  rewrite IH; [reflexivity |]. intros Hin. apply H. now right.
Qed.

(** X21: without a line that is the divider, nothing of the old
    [__init__.py] is kept: the merge gives what it gives for an empty
    file, the generated text and the divider. *)
Theorem merge_divider_missing (init_lines : list str) (generated divider : str) :
  ~ In divider init_lines ->
  merge init_lines generated divider
  = Str.strip (Str.replace Str.tab (lit "    ") (generated ++ [Str.nl] ++ divider))
    ++ [Str.nl].
Proof.
  intros H. unfold merge. rewrite index_missing by assumption.
  now rewrite app_nil_r.
Qed.

(** X22: lines and text.  The lines that [read_lines] makes of the text
    of a file, joined by newlines as [_write_to_readme] does, are that text
    again; and lines without a newline and without a carriage return, one
    at least, joined, written and read from the disk, are the lines that
    were written. *)
Theorem lines_text_round_trip :
  (forall disk,
     Str.join [Str.nl] (read_lines (Some (read_text disk))) = read_text disk) /\
  (forall windows lines,
     lines <> [] ->
     (forall l, In l lines -> ~ In Str.nl l /\ ~ In cr l) ->
     read_lines (Some (read_text (write_text windows (Str.join [Str.nl] lines))))
     = lines).
Proof.
  split.
  - intros disk. simpl. apply join_split.
  - intros windows lines Hne Hl. rewrite read_write_text.
    + simpl. apply split_join; [assumption |]. intros l Hin. now apply Hl.
    + apply join_no_sep; [intros [H | []]; discriminate |].
      intros l Hin. now apply Hl.
Qed.

(** ** The properties above on the sample inputs *)

Ltac compute_eq := vm_compute; reflexivity.
Ltac no_char := vm_compute; intuition discriminate.

Lemma unbalanced_marker_raises_witness :
  splice [Sample.title; Sample.closer; Sample.footer] coverage_pattern Sample.coverage_text
    = inl (MachineError "end" readme) /\
  splice [Sample.title; Sample.opener; Sample.opener] coverage_pattern Sample.coverage_text
    = inl (MachineError "start_new" new).
Proof.
  split.
  - pose proof (unbalanced_marker_raises coverage_pattern Sample.coverage_text
                  [Sample.title] Sample.closer [Sample.footer] [Sample.title]
                  (Some (lit "COVERAGE"))) as H.
    destruct H as [H _]; [compute_eq |]. apply H; compute_eq.
  - pose proof (unbalanced_marker_raises coverage_pattern Sample.coverage_text
                  [Sample.title; Sample.opener] Sample.opener []
                  ([Sample.title; Sample.opener; []] ++ Sample.table ++ [[]])
                  (Some (lit "COVERAGE"))) as H.
    destruct H as [_ H]; [compute_eq |].
    apply (H ltac:(compute_eq) ltac:(compute_eq) (lit "COVERAGE") Sample.table);
      compute_eq.
Defined.

Lemma closer_key_not_checked_witness :
  splice Sample.code_lines code_pattern Sample.code_text
  = inr [code_marker [] false fn; []; lit "```py"; lit "x = 1"; lit "```"; [];
         code_marker [] true (lit "other.py"); lit "the end"].
Proof.
  etransitivity.
  - apply (closer_key_not_checked code_pattern Sample.code_text
             [code_marker [] false fn; lit "old code"]
             (code_marker [] true (lit "other.py")) [lit "the end"]
             [code_marker [] false fn; []; lit "```py"; lit "x = 1"; lit "```"; []]
             (Some (lit "CODE:other.py"))); compute_eq.
  - compute_eq.
Defined.

Lemma region_content_irrelevant_witness :
  splice Sample.readme_lines coverage_pattern Sample.coverage_text
  = splice [Sample.title; Sample.opener; lit "another"; lit "old table"; Sample.closer;
            Sample.footer] coverage_pattern Sample.coverage_text.
Proof.
  apply (region_content_irrelevant coverage_pattern Sample.coverage_text
           [Sample.title] Sample.opener [Sample.old_table]
           [lit "another"; lit "old table"] [Sample.closer; Sample.footer]
           (Some (lit "COVERAGE"))).
  - compute_eq.
  - compute_eq.
  - intros l [<- | []]. compute_eq.
  - intros l [<- | [<- | []]]; compute_eq.
Defined.

Lemma splice_app_balanced_witness :
  splice (Sample.readme_lines ++ Sample.unterminated_lines) coverage_pattern
    Sample.coverage_text
  = inr (Sample.readme_spliced ++ [Sample.title; Sample.opener; []] ++ Sample.table ++ [[]]).
Proof.
  etransitivity.
  - apply (splice_app_balanced coverage_pattern Sample.coverage_text
             Sample.readme_lines Sample.unterminated_lines Sample.readme_spliced).
    compute_eq.
  - compute_eq.
Defined.

Lemma splice_lines_origin_witness :
  In (lit "| File | Coverage |") Sample.readme_lines \/
  lit "| File | Coverage |" = [] \/
  exists K v, Sample.coverage_text !! K = Some v /\ In (lit "| File | Coverage |") v.
Proof.
  apply (splice_lines_origin coverage_pattern Sample.coverage_text Sample.readme_lines
           Sample.readme_spliced).
  - compute_eq.
  - do 3 right. left. reflexivity.
Defined.

Lemma sample_table_plain (K : str) (v : list str) (l : str) :
  Sample.coverage_text !! K = Some v -> In l v ->
  coverage_pattern l = None /\ ~ In Str.nl l /\ ~ In cr l.
Proof.
  intros HK Hl. unfold Sample.coverage_text in HK.
  apply lookup_singleton_Some in HK as [_ <-].
  destruct Hl as [<- | [<- | []]]; (split; [compute_eq | split; no_char]).
Qed.

Lemma write_to_readme_idempotent_witness :
  _write_to_readme coverage_pattern Sample.coverage_text
    (Some (read_text (write_text true (Str.join [Str.nl] Sample.readme_spliced))))
  = inr (Str.join [Str.nl] Sample.readme_spliced).
Proof.
  apply (write_to_readme_idempotent coverage_pattern Sample.coverage_text
           (Some (write_text true Sample.readme_file)) true).
  - compute_eq.
  - apply sample_table_plain.
  - compute_eq.
Defined.

Lemma write_coverage_to_readme_idempotent_witness :
  _write_coverage_to_readme (Some (Sample.file_rows, Sample.timestamp))
    (Some (read_text (write_text true Sample.coverage_out)))
  = inr (Some Sample.coverage_out).
Proof.
  apply (write_coverage_to_readme_idempotent Sample.file_rows Sample.timestamp
           (Some (write_text true Sample.readme_file)) true).
  - intros row cell [<- | []] Hcell.
    repeat (destruct Hcell as [<- | Hcell]; [split; no_char |]). destruct Hcell.
  - no_char.
  - no_char.
  - compute_eq.
Defined.

Lemma COMPILED_RE_sound_witness :
  In (lit "TODO") _tags /\ lit "second" <> [] /\ ~ In Str.nl (lit "second") /\
  exists pre c x post,
    lit "x = 1  # TODO: second" = pre ++ c :: lit "TODO" ++ 58 :: x :: lit "second" ++ post /\
    (Str.isspace c = true \/ c = 40) /\ x <> 13 /\ x <> 10 /\
    (post = [] \/ exists post', post = Str.nl :: post').
Proof.
  apply (COMPILED_RE_sound (lit "x = 1  # TODO: second")). compute_eq.
Defined.

Lemma COMPILED_RE_finds_witness :
  _COMPILED_RE (lit "x = 1  # TODO: fix this") = Some (lit "TODO", lit "fix this").
Proof.
  apply (COMPILED_RE_finds (lit "x = 1  #") 32 (lit "TODO") 32 (lit "fix this")).
  - no_char.
  - left. reflexivity.
  - do 8 right. left. reflexivity.
  - discriminate.
  - discriminate.
  - discriminate.
  - no_char.
Defined.

Lemma search_lines_linenos_witness :
  (1 <= 6)%nat /\
  exists line, Sample.late_directive_file !! (6 - 1)%nat = Some line /\
               _COMPILED_RE line = Some (lit "TODO", lit "fix this").
Proof.
  apply (proj1 (search_lines_linenos _COMPILED_RE Sample.late_directive_file)
           (TaggedComment 6 (lit "TODO") (lit "fix this"))).
  right. left. reflexivity.
Defined.

Lemma search_files_collections_witness :
  _search_files Sample.project_fs
    ([lit "/repo/b.py"; lit "/repo/logo.png"] ++ [lit "/repo/plain.py"; lit "/repo/a.py"])
    _COMPILED_RE
  = _search_files Sample.project_fs [lit "/repo/b.py"; lit "/repo/logo.png"] _COMPILED_RE
    ++ _search_files Sample.project_fs [lit "/repo/plain.py"; lit "/repo/a.py"] _COMPILED_RE.
Proof.
  apply (proj2 (proj2 (search_files_collections _COMPILED_RE Sample.project_fs
                         [lit "/repo/b.py"; lit "/repo/logo.png"]))).
Defined.

Lemma format_report_counts_witness :
  exists output counter,
    List.NoDup (map fst counter) /\
    (forall t, count_of t counter
               = count_collection t
                   (_search_files Sample.project_fs Sample.project_files _COMPILED_RE)) /\
    Sample.project_report = output ++
      match counter with
      | [] => []
      | _ :: _ =>
          lit "Found tagged comments for "
          ++ Str.join (lit ",  ") (map summary_item counter) ++ [Str.nl]
      end.
Proof.
  apply (format_report_counts Sample.str_ltb Sample.relative_to Sample.project).
  compute_eq.
Defined.

Lemma create_tag_file_outcome_witness :
  _create_tag_file Sample.pkg_name Sample.str_ltb Sample.relative_to Sample.project
    Sample.project_fs [lit "/repo/plain.py"; lit "/repo/logo.png"]
    (Some (lit "an old summary"))
  = Some None.
Proof.
  apply (proj1 (create_tag_file_outcome Sample.str_ltb Sample.relative_to Sample.project
                  Sample.pkg_name Sample.project_fs
                  [lit "/repo/plain.py"; lit "/repo/logo.png"]
                  (Some (lit "an old summary")))).
  compute_eq.
Defined.

Lemma code_marker_recognised_witness :
  code_pattern (code_marker (lit "  ") true fn) = Some (Some (lit "CODE:" ++ fn)) /\
  is_closer (code_marker (lit "  ") true fn) = true.
Proof.
  apply (code_marker_recognised (lit "  ") true fn).
  - intros a [<- | [<- | []]]; reflexivity.
  - no_char.
Defined.

Lemma write_code_other_file_raises_witness :
  exists e, _write_code_to_readme (Some (lit "x = 1")) (Some Sample.other_readme) = inl e.
Proof.
  apply (write_code_other_file_raises (lit "x = 1") (Some Sample.other_readme)
           (lit "  ") (lit "docs/other.py")).
  - intros a [<- | [<- | []]]; reflexivity.
  - no_char.
  - intros H. apply (f_equal (@length N)) in H. vm_compute in H. discriminate.
  - left. compute_eq.
Defined.

Lemma check_linting_kept_line_raises_witness :
  snd (Lint.check_linting_errors Sample.lint_log None (Some [lit "E800"]))
    = Lint.RuntimeError /\
  Lint.flake8_full (fst (Lint.check_linting_errors Sample.lint_log None (Some [lit "E800"])))
    = Some (Str.strip Sample.lint_log) /\
  exists remaining,
    Lint.flake8_log (fst (Lint.check_linting_errors Sample.lint_log None (Some [lit "E800"])))
      = Some remaining /\
    In (lit "a.py:2:1: F401 imported but unused") (Str.split Str.nl remaining) /\
    forall l, In l (Str.split Str.nl remaining) ->
              Lint.ignored [lit "E800"] l = false /\
              In l (Str.split Str.nl (Str.strip Sample.lint_log)).
Proof.
  apply (check_linting_kept_line_raises Sample.lint_log None [lit "E800"]
           (lit "a.py:2:1: F401 imported but unused")).
  - right. left. compute_eq.
  - discriminate.
  - compute_eq.
Defined.

Lemma check_linting_all_ignored_witness :
  Lint.check_linting_errors Sample.lint_log (Some (lit "an old backup"))
    (Some [lit "E800"; lit "F401"])
  = (Lint.Files None (Some (Str.strip Sample.lint_log)), Lint.Returned).
Proof.
  apply (check_linting_all_ignored Sample.lint_log (Some (lit "an old backup"))
           [lit "E800"; lit "F401"]).
  intros l Hl. vm_compute in Hl. destruct Hl as [<- | [<- | []]]; compute_eq.
Defined.

Lemma splice_exceptions_witness :
  (exists group1,
     KeyError (Some (lit "COVERAGE")) = KeyError group1 /\
     forall K, group1 = Some K -> (∅ : gmap str (list str)) !! K = None)
  \/ KeyError (Some (lit "COVERAGE")) = MachineError "end" readme
  \/ KeyError (Some (lit "COVERAGE")) = MachineError "start_new" new.
Proof.
  apply (splice_exceptions coverage_pattern ∅ Sample.readme_lines). compute_eq.
Defined.

Lemma merge_divider_missing_witness :
  merge [lit "import os"; lit "x = 1"] Sample.generated _INIT_DIVIDER
  = Str.strip (Str.replace Str.tab (lit "    ")
                 (Sample.generated ++ [Str.nl] ++ _INIT_DIVIDER)) ++ [Str.nl].
Proof.
  apply (merge_divider_missing [lit "import os"; lit "x = 1"]).
  intros [H | [H | []]]; apply (f_equal (@length N)) in H; vm_compute in H; discriminate.
Defined.

Lemma lines_text_round_trip_witness :
  read_lines (Some (read_text (write_text true (Str.join [Str.nl] Sample.readme_lines))))
  = Sample.readme_lines.
Proof.
  apply (proj2 lines_text_round_trip).
  - discriminate.
  - intros l Hl. vm_compute in Hl.
    repeat (destruct Hl as [<- | Hl]; [split; no_char |]). destruct Hl.
Defined.
